(** * WCAG contrast ratio helper ([color-contrast.js])

    A shallow embedding of
    [test-support/helpers/a11y/helpers/color-contrast.js].

    JavaScript Numbers are IEEE 754 binary64 values with round to nearest,
    ties to even; they are embedded as Rocq's primitive [float]s, which have
    exactly this semantics.  The decimal literals of the source ([0.05],
    [0.2126], ...) denote the nearest binary64 value in both languages.

    Exact reasoning about rounding goes through the real value of a Number:
    the specification of the primitive operations ([SpecFloat]) is related
    to the reals in the second half of the file.

    Strings are sequences of 16-bit code units in the source.  The model
    covers the strings whose code units are all below 256, as [string]s of
    [ascii] code units: the marker, the hexadecimal digits, the signs and
    the white space [parseInt] skips in that range are all there.

    Contents:
    - the built-ins the source calls ([Math.max], [Math.min], [substr],
      [parseInt], default parameters, exceptions);
    - the five functions of the source;
    - the vocabulary of the specification, and the real value of a Number;
    - facts about Numbers, and the symmetry of the ratio calculator;
    - the entry point: what it reads, black on white, shorthand colours;
    - propagation of NaN from a channel that does not parse;
    - the channels of a valid colour, and the ratio of a colour with itself;
    - rounding to nearest: the sums and quotients computed by [SFadd] and
      [SFdiv] are nearest numbers to the exact ones;
    - the range of the ratio and its monotonicity on each side of the
      background luminance;
    - further properties: what the parser reads and what it ignores, the
      normalizer and the luminance on integer channels, the ratio on
      arbitrary luminances, exceptions and NaN at the entry point;
    - which colour strings give NaN. *)

From Stdlib Require Import ZArith Lia List Bool Ascii String Floats Reals Lra.
Import ListNotations.

Set Warnings "-inexact-float".

Local Open Scope float_scope.

(* ================================================================== *)
(** * Built-ins of the language used by the source *)
(* ================================================================== *)

(** Completion of an evaluation: a value, or a thrown exception. *)
Inductive error := TypeError.

Inductive completion (A : Type) : Type :=
| Normal (a : A)
| Throw (e : error).
Arguments Normal {A} a.
Arguments Throw {A} e.

Definition bind {A B} (c : completion A) (k : A -> completion B) : completion B :=
  match c with
  | Normal a => k a
  | Throw e => Throw e
  end.

Notation "'let*' x ':=' c 'in' k" := (bind c (fun x => k))
  (at level 10, x pattern, c at level 100, k at level 200).

(** A property value read from a style object: a primitive string, or
    [undefined] (the property is absent) or [null].  Reading [.length] of
    [undefined] or [null] throws a [TypeError].  Other values (String
    objects, objects with a [length] and a [substr] of their own) are
    outside the model. *)
Inductive jsvalue :=
| JSString (s : string)
| JSUndefined.

(** A parameter with a default value: the default is taken when the
    argument is omitted (or [undefined]), written [None]. *)
Definition default_arg {A : Type} (given : option A) (dflt : A) : A :=
  match given with
  | Some a => a
  | None => dflt
  end.

(** The Number value of a mathematical integer: rounded to nearest, ties to
    even (exact below 2^53). *)
Definition number_of_Z (z : Z) : float :=
  SF2Prim (binary_normalize prec emax z 0 false).

Module Math.

(** [Math.max(x, y)]: NaN if either is NaN; +0 counts as larger than -0. *)
Definition max (x y : float) : float :=
  if is_nan x then nan
  else if is_nan y then nan
  else if x <? y then y
  else if Leibniz.eqb y 0 && Leibniz.eqb x (-0) then y
  else x.

(** [Math.min(x, y)]: NaN if either is NaN; -0 counts as smaller than +0. *)
Definition min (x y : float) : float :=
  if is_nan x then nan
  else if is_nan y then nan
  else if y <? x then y
  else if Leibniz.eqb y (-0) && Leibniz.eqb x 0 then y
  else x.

End Math.

(** [s.substr(start, len)] for non-negative arguments: at most [len] code
    units from position [start]; empty when [start] is past the end. *)
Fixpoint substr (s : string) (start len : nat) : string :=
  match start, s with
  | O, _ =>
      match len, s with
      | S len', String c s' => String c (substr s' O len')
      | _, _ => EmptyString
      end
  | S start', String _ s' => substr s' start' len
  | S _, EmptyString => EmptyString
  end.

(** White space and line terminators below 256: TAB, LF, VT, FF, CR, SP,
    NBSP. *)
Definition is_white_space (c : ascii) : bool :=
  let n := N_of_ascii c in
  ((9 <=? n) && (n <=? 13) || (n =? 32) || (n =? 160))%N.

Fixpoint trim_start (s : string) : string :=
  match s with
  | String c s' => if is_white_space c then trim_start s' else s
  | EmptyString => s
  end.

(** Value of a code unit as a digit (0-9, a-z, A-Z), whatever the radix. *)
Definition digit_of (c : ascii) : option Z :=
  let n := Z.of_N (N_of_ascii c) in
  if ((48 <=? n) && (n <=? 57))%Z then Some (n - 48)%Z
  else if ((97 <=? n) && (n <=? 122))%Z then Some (n - 87)%Z
  else if ((65 <=? n) && (n <=? 90))%Z then Some (n - 55)%Z
  else None.

(** The longest prefix of radix-[R] digits, read as an integer; [acc] is the
    value read so far, [None] when no digit has been read. *)
Fixpoint parse_digits (R : Z) (s : string) (acc : option Z) : option Z :=
  match s with
  | EmptyString => acc
  | String c s' =>
      match digit_of c with
      | Some d =>
          if (d <? R)%Z
          then parse_digits R s'
                 (Some match acc with Some a => (a * R + d)%Z | None => d end)
          else acc
      | None => acc
      end
  end.

Definition strip_sign (s : string) : bool * string :=
  match s with
  | String "-"%char s' => (true, s')
  | String "+"%char s' => (false, s')
  | _ => (false, s)
  end.

Definition strip_hex_prefix (s : string) : string :=
  match s with
  | String "0"%char (String "x"%char s') => s'
  | String "0"%char (String "X"%char s') => s'
  | _ => s
  end.

(** [parseInt(s, radix)] with an integer [radix]; [0] stands for an absent
    radix. *)
Definition parseInt (s : string) (radix : Z) : float :=
  let '(negative, s1) := strip_sign (trim_start s) in
  if ((radix =? 0) || (2 <=? radix) && (radix <=? 36))%Z then
    let stripPrefix := ((radix =? 0) || (radix =? 16))%Z in
    let s2 := if stripPrefix then strip_hex_prefix s1 else s1 in
    let R :=
      if (radix =? 0)%Z
      then (if String.eqb s2 s1 then 10%Z else 16%Z)
      else radix in
    match parse_digits R s2 None with
    | None => nan
    | Some 0%Z => if negative then (-0) else 0
    | Some mathInt => number_of_Z (if negative then - mathInt else mathInt)
    end
  else nan.

(* ================================================================== *)
(** * The source, function by function *)
(* ================================================================== *)

(** An array of three Numbers. *)
Definition triple : Type := float * float * float.

Definition contrastRatio (l1 l2 : float) : float :=
  let lighter := Math.max l1 l2 in
  let darker := Math.min l1 l2 in
  let numerator := lighter + 0.05 in
  let denominator := darker + 0.05 in
  numerator / denominator.

Definition relativeLuminance (c : triple) : float :=
  let '(r, g, b) := c in
  let rs := 0.2126 * r in
  let gs := 0.7152 * g in
  let bs := 0.0722 * b in
  rs + gs + bs.

Definition normalizeColor (c : triple) : triple :=
  let '(r, g, b) := c in
  let rn := r / 255 in
  let gn := g / 255 in
  let bn := b / 255 in
  (rn, gn, bn).

Module toRGB.

(** The parser proper, on a string. *)
Definition hex_string (color : string) : triple :=
  let chunkLength := if Nat.eqb (String.length color) 4 then 1%nat else 2%nat in
  let r := parseInt (substr color 1 chunkLength) 16 in
  let g := parseInt (substr color (1 + chunkLength) chunkLength) 16 in
  let b := parseInt (substr color (1 + chunkLength * 2) chunkLength) 16 in
  (r, g, b).

(** [toRGB.hex(color)]: [color.length] throws when [color] is [undefined]
    or [null]. *)
Definition hex (color : jsvalue) : completion triple :=
  match color with
  | JSString s => Normal (hex_string s)
  | JSUndefined => Throw TypeError
  end.

End toRGB.

(** Element-like objects: only [style.color] and [style.backgroundColor]
    are ever read. *)
Record Style := { color : jsvalue; backgroundColor : jsvalue }.
Record Element := { style : Style }.

(** [checkTextContrast(app, text, background=text)]; [None] is an omitted
    (or [undefined]) third argument. *)
Definition checkTextContrast {A : Type} (app : A) (text : Element)
    (background : option Element) : completion float :=
  let background := default_arg background text in
  let* foregroundRGB := toRGB.hex (color (style text)) in
  let* backgroundRGB := toRGB.hex (backgroundColor (style background)) in
  let normalColorFG := normalizeColor foregroundRGB in
  let normalColorBG := normalizeColor backgroundRGB in
  let l1 := relativeLuminance normalColorFG in
  let l2 := relativeLuminance normalColorBG in
  let ratio := contrastRatio l1 l2 in
  Normal ratio.

(* ================================================================== *)
(** * Vocabulary of the specification *)
(* ================================================================== *)

Definition is_hex_digit (c : ascii) : bool :=
  match digit_of c with
  | Some d => (d <? 16)%Z
  | None => false
  end.

Fixpoint all_hex_digits (s : string) : bool :=
  match s with
  | EmptyString => true
  | String c s' => is_hex_digit c && all_hex_digits s'
  end.

(** A valid hex colour: [#] followed by exactly 3 or exactly 6 hex digits. *)
Definition valid_hex_color (s : string) : bool :=
  match s with
  | String "#"%char ds =>
      all_hex_digits ds
      && (Nat.eqb (String.length ds) 3 || Nat.eqb (String.length ds) 6)
  | _ => false
  end.

(** An element whose style carries the given strings. *)
Definition element (fg bg : string) : Element :=
  {| style := {| color := JSString fg; backgroundColor := JSString bg |} |}.

(** The contrast of colour string [fg] on colour string [bg], through the
    entry point with both arguments given. *)
Definition contrast (fg bg : string) : completion float :=
  checkTextContrast tt (element fg "") (Some (element "" bg)).

(** What the entry point computes from the two strings it reads. *)
Definition ratio_of (fg bg : string) : float :=
  contrastRatio
    (relativeLuminance (normalizeColor (toRGB.hex_string fg)))
    (relativeLuminance (normalizeColor (toRGB.hex_string bg))).

(** Some channel of the colour string does not parse: [parseInt] yields
    NaN for it. *)
Definition unparsable (s : string) : bool :=
  let '(r, g, b) := toRGB.hex_string s in
  is_nan r || is_nan g || is_nan b.

(** A Number in the closed interval from 0 to 1. *)
Definition in_unit (x : float) : bool := (0 <=? x) && (x <=? 1).

(** The malformed-colour behaviour as the specification words it: a colour
    string that is not a valid hex colour makes the result NaN. *)
Definition malformed_yields_nan : Prop :=
  forall fg bg : string,
    valid_hex_color fg = false -> contrast fg bg = Normal nan.

(** The Numbers that a channel of a valid colour can take: the integers
    0..255. *)
Definition channels : list float :=
  Eval vm_compute in map (fun n => number_of_Z (Z.of_nat n)) (seq 0 256).

Definition all_ascii : list ascii :=
  Eval vm_compute in map ascii_of_nat (seq 0 256).

Definition is_channel (x : float) : bool := existsb (Leibniz.eqb x) channels.

(** The luminance of a colour given by its three channels. *)
Definition luminance (r g b : float) : float :=
  relativeLuminance (normalizeColor (r, g, b)).

(** Checks run over every code unit, and over every pair of hex digits. *)
Definition hex1_ok (c : ascii) : bool :=
  implb (is_hex_digit c) (is_channel (parseInt (String c "") 16)).

Definition hex2_ok (c1 c2 : ascii) : bool :=
  implb (is_hex_digit c1 && is_hex_digit c2)
    (is_channel (parseInt (String c1 (String c2 "")) 16)).

(** A one-digit channel that is not a hex digit does not parse. *)
Definition non_hex1_ok (c : ascii) : bool :=
  is_hex_digit c || is_nan (parseInt (String c "") 16).

(** The ratio of a colour against itself is 1. *)
Definition identity_ok (r g b : float) : bool :=
  let l := luminance r g b in Leibniz.eqb (contrastRatio l l) 1.

(** A check run over every triple of channels. *)
Definition for_all_channels (t : float -> float -> float -> bool) : bool :=
  forallb (fun r => forallb (fun g => forallb (fun b => t r g b) channels) channels)
    channels.

(* ================================================================== *)
(** * The real value of a Number *)
(* ================================================================== *)

(** Powers of two, and the value [m * 2^e] of a mantissa and an exponent. *)
Definition bpow (e : Z) : R := powerRZ 2 e.

Definition F2R (m e : Z) : R := (IZR m * bpow e)%R.

(** The value of a finite Number (0 for infinities and NaN, which the
    statements below exclude). *)
Definition SF2R (f : spec_float) : R :=
  match f with
  | S754_finite s m e => F2R (cond_Zopp s (Zpos m)) e
  | _ => 0%R
  end.

Definition val (x : float) : R := SF2R (Prim2SF x).

(** The monotonicity property as the specification words it: the further
    the foreground luminance is from the background luminance, on either
    side, the strictly larger the ratio.  The distance is the exact one,
    between the values of the luminances. *)
Definition monotone_in_distance : Prop :=
  forall b f1 f2 : float,
    in_unit b = true -> in_unit f1 = true -> in_unit f2 = true ->
    (Rabs (val f1 - val b) < Rabs (val f2 - val b))%R ->
    (contrastRatio f1 b <? contrastRatio f2 b) = true.

(** Zero of either sign, or positive and finite. *)
Definition nonneg_finite (f : spec_float) : Prop :=
  match f with
  | S754_zero _ => True
  | S754_finite false _ _ => True
  | _ => False
  end.

(** The reals of the format, the exponent unbounded above: [mf * 2^ef] with
    a mantissa below [2^53] and an exponent from [emin] up. *)
Definition is_format (mf ef : Z) : Prop :=
  (Z.abs mf < 2 ^ prec)%Z /\ (emin <= ef)%Z.

Definition format (r : R) : Prop :=
  exists mf ef, is_format mf ef /\ r = F2R mf ef.

(** [r] is a nearest number of the format to [x]: [x] is not beyond the
    midpoint between [r] and any other number of the format. *)
Definition rounds_to (x r : R) : Prop :=
  forall mf ef, is_format mf ef ->
    (F2R mf ef < r -> (F2R mf ef + r) / 2 <= x)%R
    /\ (r < F2R mf ef -> x <= (r + F2R mf ef) / 2)%R.

(** What a rounding location says: where the scaled real [t] lies between
    the integers [m] and [m + 1]. *)
Definition locates (m : Z) (t : R) (l : location) : Prop :=
  match l with
  | loc_Exact => t = IZR m
  | loc_Inexact Lt => (IZR m < t < IZR m + / 2)%R
  | loc_Inexact Eq => t = (IZR m + / 2)%R
  | loc_Inexact Gt => (IZR m + / 2 < t < IZR m + 1)%R
  end.

(** Numbers in the range of an offset luminance, from [0 + 0.05] to
    [1 + 0.05]. *)
Definition offset_like (n : float) : Prop :=
  nonneg_finite (Prim2SF n)
  /\ (val 0.05 <= val n <= val (1 + 0.05))%R.

(** The luminance of every triple of channels is in the unit interval. *)
Definition unit_ok (r g b : float) : bool := in_unit (luminance r g b).

(* ================================================================== *)
(** * Further vocabulary: bytes, letter case, malformed strings *)
(* ================================================================== *)

(** The value of a hex digit (0 for any other code unit). *)
Definition hex_value (c : ascii) : Z :=
  match digit_of c with
  | Some d => d
  | None => 0%Z
  end.

(** A letter A-Z in lower case, any other code unit unchanged. *)
Definition lower_ascii (c : ascii) : ascii :=
  let n := N_of_ascii c in
  if ((65 <=? n) && (n <=? 90))%N then ascii_of_N (n + 32) else c.

(** Each of the letters A-Z replaced by a-z, every other code unit kept:
    the number of code units does not change. *)
Fixpoint lower_ascii_letters (s : string) : string :=
  match s with
  | EmptyString => EmptyString
  | String c s' => String (lower_ascii c) (lower_ascii_letters s')
  end.

(** Fewer than 6 code units, and not the 4 of a shorthand colour. *)
Definition too_short (s : string) : bool :=
  (String.length s <? 6)%nat && negb (String.length s =? 4)%nat.

(** The length of a shorthand colour, with a code unit that is not a hex
    digit among the last three. *)
Definition bad_shorthand (s : string) : bool :=
  (String.length s =? 4)%nat && negb (all_hex_digits (substr s 1 3)).

(** The integers 0..255. *)
Definition bytes : list Z := Eval vm_compute in map Z.of_nat (seq 0 256).

(** The luminance of a colour given by three integer channels. *)
Definition luminance_of_bytes (r g b : Z) : float :=
  relativeLuminance
    (normalizeColor (number_of_Z r, number_of_Z g, number_of_Z b)).

(** Checks run over every code unit, channel or byte. *)
Definition hex1_value_ok (c : ascii) : bool :=
  implb (is_hex_digit c)
    (Leibniz.eqb (parseInt (String c "") 16) (number_of_Z (hex_value c))
     && Leibniz.eqb (parseInt (String "0" (String c "")) 16)
          (number_of_Z (hex_value c))).

Definition hex2_value_ok (c1 c2 : ascii) : bool :=
  implb (is_hex_digit c1 && is_hex_digit c2)
    (Leibniz.eqb (parseInt (String c1 (String c2 "")) 16)
       (number_of_Z (16 * hex_value c1 + hex_value c2))).

Definition lower_ok (c : ascii) : bool :=
  Bool.eqb (is_white_space (lower_ascii c)) (is_white_space c)
  && match digit_of (lower_ascii c), digit_of c with
     | Some a, Some b => (a =? b)%Z
     | None, None => true
     | _, _ => false
     end.

Definition normalize_ok (c : float) : bool := in_unit (c / 255).

Definition succ_ok (z : Z) : bool :=
  (z =? 255)%Z
  || (Leibniz.eqb (number_of_Z z + 1) (number_of_Z (z + 1))
      && negb (Leibniz.eqb (number_of_Z z) 255)).

(** Raising one channel by one raises the luminance. *)
Definition steps_ok (r g b : float) : bool :=
  let l := luminance r g b in
  (Leibniz.eqb r 255 || (l <? luminance (r + 1) g b))
  && (Leibniz.eqb g 255 || (l <? luminance r (g + 1) b))
  && (Leibniz.eqb b 255 || (l <? luminance r g (b + 1))).

(* ================================================================== *)
(** * Further vocabulary: the channels that parse *)
(* ================================================================== *)

(** White space and line terminators, by their code units: TAB, LF, VT,
    FF, CR, space and no-break space. *)
Definition white_space_char (c : ascii) : bool :=
  existsb (N.eqb (N_of_ascii c)) [9; 10; 11; 12; 13; 32; 160]%N.

Definition sign_char (c : ascii) : bool :=
  Ascii.eqb c "+" || Ascii.eqb c "-".

(** A channel of one code unit parses when it is a hex digit. *)
Definition one_unit_parses (c : ascii) : bool := is_hex_digit c.

(** A channel of two code units parses when it is a hex digit followed by
    anything, [0x] and [0X] apart, or white space or a sign followed by a
    hex digit. *)
Definition two_units_parse (c1 c2 : ascii) : bool :=
  is_hex_digit c1
  && negb (Ascii.eqb c1 "0" && (Ascii.eqb c2 "x" || Ascii.eqb c2 "X"))
  || (white_space_char c1 || sign_char c1) && is_hex_digit c2.

(** The three channels of a colour string all parse.  In a string of four
    code units the channels are the code units 1, 2 and 3; otherwise they
    are the pairs 1-2, 3-4 and 5-6, the last one a single code unit in a
    string of six and empty in a shorter one. *)
Definition channels_parse (s : string) : bool :=
  match s with
  | String _ (String c1 (String c2 (String c3 EmptyString))) =>
      one_unit_parses c1 && one_unit_parses c2 && one_unit_parses c3
  | String _ (String c1 (String c2 (String c3 (String c4 (String c5 rest))))) =>
      two_units_parse c1 c2 && two_units_parse c3 c4
      && match rest with
         | EmptyString => one_unit_parses c5
         | String c6 _ => two_units_parse c5 c6
         end
  | _ => false
  end.

(** The Numbers a channel that parses can be: 0..255, -15..-1 and -0. *)
Definition parsed_values : list float :=
  Eval vm_compute in
    channels ++ map (fun n => number_of_Z (- Z.of_nat n)) (seq 1 15) ++ [(-0)].

Definition is_parsed_value (x : float) : bool :=
  existsb (Leibniz.eqb x) parsed_values.

(** Checks run over every code unit, every pair of code units and every
    triple of parsed values. *)
Definition one_unit_ok (c : ascii) : bool :=
  let x := parseInt (String c "") 16 in
  if one_unit_parses c then is_parsed_value x else is_nan x.

Definition two_units_ok (c1 c2 : ascii) : bool :=
  let x := parseInt (String c1 (String c2 "")) 16 in
  if two_units_parse c1 c2 then is_parsed_value x else is_nan x.

Definition offset_ok (r g b : float) : bool :=
  let l := luminance r g b in
  let n := l + 0.05 in
  negb (is_nan l) && (neg_infinity <? n) && (n <? infinity) && negb (n =? 0).

Definition for_all_triples (vals : list float)
    (t : float -> float -> float -> bool) : bool :=
  forallb (fun r => forallb (fun g => forallb (fun b => t r g b) vals) vals) vals.

Ltac split_eqb :=
  repeat match goal with
  | |- context [Leibniz.eqb ?a ?b] =>
      let E := fresh "E" in
      destruct (Leibniz.eqb a b) eqn:E;
      [apply Leibniz.eqb_spec in E; subst|]
  end.

(* ================================================================== *)
(** * Facts about Numbers *)
(* ================================================================== *)

Lemma SFcompare_refl (f : spec_float) :
  f <> S754_nan -> SFcompare f f = Some Eq.
Proof.
  destruct f as [s|s| |s m e]; simpl; try congruence.
  - destruct s; reflexivity.
  - intros _. rewrite Z.compare_refl.
    assert (H : Pos.compare_cont Eq m m = Eq) by apply Pos.compare_refl.
    rewrite H. destruct s; reflexivity.
Qed.

Lemma is_nan_true (x : float) : is_nan x = true -> x = nan.
Proof.
  unfold is_nan. rewrite eqb_spec. unfold SFeqb. intros H.
  apply Prim2SF_inj.
  destruct (Prim2SF x) eqn:E; try reflexivity;
    rewrite SFcompare_refl in H by discriminate; discriminate.
Qed.

Lemma is_nan_false (x : float) : is_nan x = false -> Prim2SF x <> S754_nan.
Proof.
  intros H E. assert (x = nan) by (apply Prim2SF_inj; rewrite E; reflexivity).
  subst x. discriminate.
Qed.

Lemma SFcompare_Eq (f1 f2 : spec_float) :
  SFcompare f1 f2 = Some Eq ->
  f1 = f2 \/ (exists s1 s2, f1 = S754_zero s1 /\ f2 = S754_zero s2).
Proof.
  destruct f1 as [s1|s1| |s1 m1 e1], f2 as [s2|s2| |s2 m2 e2]; simpl;
    try discriminate;
    try (right; eauto; fail);
    try (destruct s1; discriminate); try (destruct s2; discriminate).
  - destruct s1, s2; try discriminate; auto.
  - intros H. left.
    assert (e1 = e2 /\ m1 = m2) as [-> ->].
    { destruct s1, s2; try discriminate;
        destruct (Z.compare_spec e1 e2); try discriminate;
        (split; [assumption|]);
        apply Pos.compare_eq; unfold Pos.compare;
        destruct (Pos.compare_cont Eq m1 m2); try discriminate; reflexivity. }
    destruct s1, s2; try discriminate; reflexivity.
Qed.

Lemma SFcompare_antisym (f1 f2 : spec_float) :
  SFcompare f2 f1 = option_map CompOpp (SFcompare f1 f2).
Proof.
  destruct f1 as [s1|s1| |s1 m1 e1], f2 as [s2|s2| |s2 m2 e2]; simpl;
    try reflexivity;
    try (destruct s1; reflexivity); try (destruct s2; reflexivity);
    try (destruct s1, s2; reflexivity).
  assert (Hm : Pos.compare_cont Eq m2 m1 = CompOpp (Pos.compare_cont Eq m1 m2))
    by apply Pos.compare_antisym.
  rewrite (Z.compare_antisym e1 e2), Hm.
  destruct s1, s2; try reflexivity;
    destruct (e1 ?= e2)%Z; simpl; try reflexivity;
    destruct (Pos.compare_cont Eq m1 m2); reflexivity.
Qed.

Lemma zero_cases (x : float) (s : bool) :
  Prim2SF x = S754_zero s -> x = 0 \/ x = (-0).
Proof.
  intros H. rewrite <- (SF2Prim_Prim2SF x), H. destruct s; simpl; auto.
Qed.

(** Two Numbers, neither NaN, are ordered one way or the other, or are the
    same, or are both zeros. *)
Lemma number_trichotomy (x y : float) :
  is_nan x = false -> is_nan y = false ->
  (x <? y) = true \/ (y <? x) = true \/ x = y
  \/ ((x = 0 \/ x = (-0)) /\ (y = 0 \/ y = (-0))).
Proof.
  intros Hx Hy. apply is_nan_false in Hx, Hy.
  rewrite !ltb_spec. unfold SFltb.
  rewrite (SFcompare_antisym (Prim2SF x) (Prim2SF y)).
  destruct (SFcompare (Prim2SF x) (Prim2SF y)) as [[ | | ]|] eqn:E; simpl; auto.
  - apply SFcompare_Eq in E. destruct E as [E|(s1 & s2 & E1 & E2)].
    + right. right. left. apply Prim2SF_inj, E.
    + right. right. right. split; eapply zero_cases; eassumption.
  - exfalso. destruct (Prim2SF x), (Prim2SF y); simpl in E; congruence.
Qed.

Lemma ltb_asym (x y : float) : (x <? y) = true -> (y <? x) = false.
Proof.
  rewrite !ltb_spec. unfold SFltb.
  rewrite (SFcompare_antisym (Prim2SF x) (Prim2SF y)).
  destruct (SFcompare (Prim2SF x) (Prim2SF y)) as [[ | | ]|]; simpl; congruence.
Qed.

Lemma ltb_irrefl (x : float) : (x <? x) = false.
Proof.
  destruct (x <? x) eqn:E; [|reflexivity].
  rewrite (ltb_asym _ _ E) in E. discriminate.
Qed.

Lemma Leibniz_eqb_refl (x : float) : Leibniz.eqb x x = true.
Proof. apply Leibniz.eqb_spec. reflexivity. Qed.

Lemma Leibniz_eqb_false (x y : float) : x <> y -> Leibniz.eqb x y = false.
Proof.
  intros H. destruct (Leibniz.eqb x y) eqn:E; [|reflexivity].
  apply Leibniz.eqb_spec in E. contradiction.
Qed.

Lemma Leibniz_eqb_dec (x y : float) : {x = y} + {x <> y}.
Proof.
  destruct (Leibniz.eqb x y) eqn:E.
  - left. apply Leibniz.eqb_spec, E.
  - right. intros ->. rewrite Leibniz_eqb_refl in E. discriminate.
Qed.

Lemma Math_max_comm (x y : float) : Math.max x y = Math.max y x.
Proof.
  unfold Math.max.
  destruct (is_nan x) eqn:Hx, (is_nan y) eqn:Hy; try reflexivity.
  destruct (number_trichotomy x y Hx Hy) as [H|[H|[H|[Hzx Hzy]]]].
  - rewrite H, (ltb_asym _ _ H). split_eqb; simpl; try reflexivity.
    vm_compute in H. discriminate.
  - rewrite H, (ltb_asym _ _ H). split_eqb; simpl; try reflexivity.
    vm_compute in H. discriminate.
  - subst y. reflexivity.
  - destruct Hzx as [-> | ->], Hzy as [-> | ->]; reflexivity.
Qed.

Lemma Math_min_comm (x y : float) : Math.min x y = Math.min y x.
Proof.
  unfold Math.min.
  destruct (is_nan x) eqn:Hx, (is_nan y) eqn:Hy; try reflexivity.
  destruct (number_trichotomy x y Hx Hy) as [H|[H|[H|[Hzx Hzy]]]].
  - rewrite H, (ltb_asym _ _ H). split_eqb; simpl; try reflexivity.
    vm_compute in H. discriminate.
  - rewrite H, (ltb_asym _ _ H). split_eqb; simpl; try reflexivity.
    vm_compute in H. discriminate.
  - subst y. reflexivity.
  - destruct Hzx as [-> | ->], Hzy as [-> | ->]; reflexivity.
Qed.

(** C5: the ratio calculator is symmetric: for all Numbers [l1] and [l2]
    (luminances or not), [contrastRatio l1 l2] and [contrastRatio l2 l1] are
    the same Number. *)
Theorem contrastRatio_symmetric (l1 l2 : float) :
  contrastRatio l1 l2 = contrastRatio l2 l1.
Proof.
  unfold contrastRatio.
  rewrite (Math_max_comm l1 l2), (Math_min_comm l1 l2). reflexivity.
Qed.

(* ================================================================== *)
(** * The entry point *)
(* ================================================================== *)

Lemma all_ascii_complete (c : ascii) : In c all_ascii.
Proof.
  change all_ascii with (map ascii_of_nat (seq 0 256)).
  apply in_map_iff. exists (nat_of_ascii c). split.
  - apply ascii_nat_embedding.
  - apply in_seq. pose proof (nat_ascii_bounded c). lia.
Qed.

Lemma Normal_inj {A} (x y : A) : Normal x = Normal y -> x = y.
Proof. intros H. injection H. trivial. Qed.

Lemma number_neq (x y : float) : Leibniz.eqb x y = false -> x <> y.
Proof.
  intros H E. apply (proj2 (Leibniz.eqb_spec _ _)) in E. congruence.
Qed.

Lemma checkTextContrast_strings {A} (app : A) text background fg bg :
  color (style text) = JSString fg ->
  backgroundColor (style (default_arg background text)) = JSString bg ->
  checkTextContrast app text background = Normal (ratio_of fg bg).
Proof.
  intros Hf Hb. unfold checkTextContrast. rewrite Hf, Hb. reflexivity.
Qed.

(** C3: black text ([#000000]) on a white background ([#ffffff]) has
    contrast exactly 21. *)
Theorem black_on_white_is_21 {A} (app : A) (text background : Element) :
  color (style text) = JSString "#000000" ->
  backgroundColor (style background) = JSString "#ffffff" ->
  checkTextContrast app text (Some background) = Normal 21.
Proof.
  intros Hf Hb.
  rewrite (checkTextContrast_strings app text (Some background) _ _ Hf Hb).
  vm_compute. reflexivity.
Qed.

Lemma black_on_white_is_21_witness :
  checkTextContrast tt (element "#000000" "#123456")
    (Some (element "#654321" "#ffffff")) = Normal 21.
Proof. apply (black_on_white_is_21 tt); reflexivity. Defined.

(** C7: omitting the background argument is the same as passing the text
    element as the background. *)
Theorem default_background_is_text {A} (app : A) (text : Element) :
  checkTextContrast app text None = checkTextContrast app text (Some text).
Proof. reflexivity. Qed.

(** C9: the first parameter has no effect on the result. *)
Theorem appContext_is_ignored {A B} (a1 : A) (a2 : B) (text : Element)
    (background : option Element) :
  checkTextContrast a1 text background = checkTextContrast a2 text background.
Proof. reflexivity. Qed.

(** C10: the result depends only on [text.style.color] and on the
    [style.backgroundColor] of the background element (the text element when
    the background is omitted): calls that agree on these two values return
    the same result, whatever the other properties and the first argument
    are. *)
Theorem result_depends_on_two_properties {A B} (a1 : A) (a2 : B)
    (text1 text2 : Element) (background1 background2 : option Element) :
  color (style text1) = color (style text2) ->
  backgroundColor (style (default_arg background1 text1))
  = backgroundColor (style (default_arg background2 text2)) ->
  checkTextContrast a1 text1 background1 = checkTextContrast a2 text2 background2.
Proof.
  intros Hf Hb. unfold checkTextContrast. rewrite Hf, Hb. reflexivity.
Qed.

Lemma result_depends_on_two_properties_witness :
  checkTextContrast tt (element "#767676" "#000")
    (Some (element "#abc" "#ffffff"))
  = checkTextContrast 7%nat (element "#767676" "#ffffff") None.
Proof. apply result_depends_on_two_properties; reflexivity. Defined.

(** C1 (fails on the code): a shorthand colour is not expanded.  [#fff] is
    read as the channels 15, 15, 15, that is as [#0f0f0f], so its contrast
    with black differs from that of [#ffffff], which is 21. *)
Theorem shorthand_is_not_expanded :
  contrast "#fff" "#000000" = contrast "#0f0f0f" "#000000"
  /\ contrast "#ffffff" "#000000" = Normal 21
  /\ contrast "#fff" "#000000" <> contrast "#ffffff" "#000000"
  /\ toRGB.hex_string "#fff" = (15, 15, 15).
Proof.
  repeat split; try (vm_compute; reflexivity).
  intros H. apply Normal_inj in H. revert H. apply number_neq.
  vm_compute. reflexivity.
Qed.

(* ================================================================== *)
(** * Not-a-number propagates *)
(* ================================================================== *)

Lemma Prim2SF_nan : Prim2SF nan = S754_nan.
Proof. reflexivity. Qed.

Lemma div_nan_l (y : float) : nan / y = nan.
Proof. apply Prim2SF_inj. rewrite div_spec, Prim2SF_nan. reflexivity. Qed.

Lemma div_nan_r (x : float) : x / nan = nan.
Proof.
  apply Prim2SF_inj. rewrite div_spec, Prim2SF_nan.
  destruct (Prim2SF x); reflexivity.
Qed.

Lemma mul_nan_r (x : float) : x * nan = nan.
Proof.
  apply Prim2SF_inj. rewrite mul_spec, Prim2SF_nan.
  destruct (Prim2SF x); reflexivity.
Qed.

Lemma add_nan_l (y : float) : nan + y = nan.
Proof. apply Prim2SF_inj. rewrite add_spec, Prim2SF_nan. reflexivity. Qed.

Lemma add_nan_r (x : float) : x + nan = nan.
Proof.
  apply Prim2SF_inj. rewrite add_spec, Prim2SF_nan.
  destruct (Prim2SF x); reflexivity.
Qed.

Lemma luminance_nan (r g b : float) :
  is_nan r || is_nan g || is_nan b = true -> luminance r g b = nan.
Proof.
  unfold luminance, relativeLuminance, normalizeColor.
  rewrite !orb_true_iff. intros [[H|H]|H]; apply is_nan_true in H; subst;
    rewrite div_nan_l, mul_nan_r;
    repeat (rewrite add_nan_l || rewrite add_nan_r); reflexivity.
Qed.

Lemma contrastRatio_nan_l (l : float) : contrastRatio nan l = nan.
Proof. unfold contrastRatio. apply div_nan_l. Qed.

Lemma contrastRatio_nan_r (l : float) : contrastRatio l nan = nan.
Proof.
  unfold contrastRatio. rewrite (Math_max_comm l nan), (Math_min_comm l nan).
  apply div_nan_l.
Qed.

Lemma ratio_of_unparsable (fg bg : string) :
  unparsable fg = true \/ unparsable bg = true -> ratio_of fg bg = nan.
Proof.
  unfold ratio_of, unparsable.
  destruct (toRGB.hex_string fg) as [[r1 g1] b1].
  destruct (toRGB.hex_string bg) as [[r2 g2] b2].
  fold (luminance r1 g1 b1). fold (luminance r2 g2 b2).
  intros [H|H]; rewrite (luminance_nan _ _ _ H).
  - apply contrastRatio_nan_l.
  - apply contrastRatio_nan_r.
Qed.

(** A string too short to hold three two-digit channels, and not of the
    shorthand length either, has an empty last channel. *)
Lemma too_short_unparsable (s : string) :
  (String.length s < 6)%nat -> String.length s <> 4%nat -> unparsable s = true.
Proof.
  intros Hlen H4.
  destruct s as [|c0 [|c1 [|c2 [|c3 [|c4 [|c5 [|c6 s]]]]]]];
    simpl in Hlen, H4; try lia;
    unfold unparsable, toRGB.hex_string;
    cbn [String.length Nat.eqb substr Nat.add Nat.mul];
    apply orb_true_r.
Qed.

(** A string of the shorthand length with a character that is not a hex
    digit among its last three has a channel that does not parse. *)
Lemma shorthand_non_hex_unparsable (s : string) :
  String.length s = 4%nat -> all_hex_digits (substr s 1 3) = false ->
  unparsable s = true.
Proof.
  assert (H : forall c, is_hex_digit c = false ->
            is_nan (parseInt (String c "") 16) = true).
  { assert (Hall : forallb non_hex1_ok all_ascii = true)
      by (vm_compute; reflexivity).
    rewrite forallb_forall in Hall. intros c Hc.
    specialize (Hall c (all_ascii_complete c)). unfold non_hex1_ok in Hall.
    rewrite Hc in Hall. exact Hall. }
  destruct s as [|c0 [|c1 [|c2 [|c3 [|c4 s]]]]]; try discriminate.
  intros _. cbn [substr all_hex_digits]. rewrite andb_true_r.
  unfold unparsable, toRGB.hex_string.
  cbn [String.length Nat.eqb substr Nat.add Nat.mul].
  destruct (is_hex_digit c1) eqn:E1; [|rewrite (H c1 E1); reflexivity].
  destruct (is_hex_digit c2) eqn:E2;
    [|rewrite (H c2 E2), orb_true_r; reflexivity].
  destruct (is_hex_digit c3) eqn:E3; [discriminate|].
  intros _. rewrite (H c3 E3). apply orb_true_r.
Qed.

(** C8 (fails on the code): a malformed colour string does not always give
    NaN.  With eight hex digits the first six are read, and the result is a
    Number. *)
Theorem malformed_color_can_give_a_number : ~ malformed_yields_nan.
Proof.
  intros H. specialize (H "#ffffffff"%string "#000000"%string eq_refl).
  apply Normal_inj in H. revert H. apply number_neq. vm_compute. reflexivity.
Qed.

(* ================================================================== *)
(** * The channels of a valid colour *)
(* ================================================================== *)

Lemma hex1_channel (c : ascii) :
  is_hex_digit c = true -> is_channel (parseInt (String c "") 16) = true.
Proof.
  assert (H : forallb hex1_ok all_ascii = true) by (vm_compute; reflexivity).
  rewrite forallb_forall in H. specialize (H c (all_ascii_complete c)).
  unfold hex1_ok in H. intros Hc. rewrite Hc in H. exact H.
Qed.

Lemma hex2_channel (c1 c2 : ascii) :
  is_hex_digit c1 = true -> is_hex_digit c2 = true ->
  is_channel (parseInt (String c1 (String c2 "")) 16) = true.
Proof.
  assert (H : forallb (fun a => forallb (hex2_ok a) all_ascii) all_ascii = true)
    by (vm_compute; reflexivity).
  rewrite forallb_forall in H. specialize (H c1 (all_ascii_complete c1)).
  rewrite forallb_forall in H. specialize (H c2 (all_ascii_complete c2)).
  unfold hex2_ok in H. intros H1 H2. rewrite H1, H2 in H. exact H.
Qed.

Lemma is_channel_In (x : float) : is_channel x = true -> In x channels.
Proof.
  unfold is_channel. rewrite existsb_exists. intros (y & Hy & E).
  apply Leibniz.eqb_spec in E. subst. exact Hy.
Qed.

(** The parser maps a valid colour to three integers between 0 and 255. *)
Lemma hex_string_channels (s : string) :
  valid_hex_color s = true ->
  exists r g b, toRGB.hex_string s = (r, g, b)
    /\ In r channels /\ In g channels /\ In b channels.
Proof.
  destruct s as [|c0 ds]; [discriminate|].
  destruct c0 as [[] [] [] [] [] [] [] []]; try discriminate.
  cbn [valid_hex_color]. rewrite andb_true_iff, orb_true_iff.
  intros [Hd Hl].
  destruct ds as [|c1 [|c2 [|c3 [|c4 [|c5 [|c6 [|c7 ds]]]]]]];
    cbn [String.length Nat.eqb] in Hl; try (destruct Hl; discriminate);
    cbn [all_hex_digits] in Hd; repeat rewrite andb_true_iff in Hd;
    unfold toRGB.hex_string;
    cbn [String.length Nat.eqb substr Nat.add Nat.mul];
    do 3 eexists; (split; [reflexivity|]).
  - destruct Hd as (H1 & H2 & H3 & _).
    repeat split; apply is_channel_In, hex1_channel; assumption.
  - destruct Hd as (H1 & H2 & H3 & H4 & H5 & H6 & _).
    repeat split; apply is_channel_In, hex2_channel; assumption.
Qed.

Lemma for_all_channels_spec (t : float -> float -> float -> bool) :
  for_all_channels t = true ->
  forall r g b, In r channels -> In g channels -> In b channels ->
    t r g b = true.
Proof.
  unfold for_all_channels. intros H r g b Hr Hg Hb.
  rewrite forallb_forall in H. specialize (H r Hr).
  rewrite forallb_forall in H. specialize (H g Hg).
  rewrite forallb_forall in H. exact (H b Hb).
Qed.

Lemma identity_on_channels : for_all_channels identity_ok = true.
Proof. vm_compute. reflexivity. Qed.

(** C4: a valid colour against itself has contrast exactly 1. *)
Theorem same_color_is_1 {A} (app : A) (text : Element)
    (background : option Element) (c : string) :
  valid_hex_color c = true ->
  color (style text) = JSString c ->
  backgroundColor (style (default_arg background text)) = JSString c ->
  checkTextContrast app text background = Normal 1.
Proof.
  intros Hv Hf Hb. rewrite (checkTextContrast_strings app _ _ _ _ Hf Hb).
  destruct (hex_string_channels c Hv) as (r & g & b & E & Hr & Hg & Hbl).
  unfold ratio_of. rewrite E. fold (luminance r g b).
  pose proof (for_all_channels_spec _ identity_on_channels r g b Hr Hg Hbl) as H.
  unfold identity_ok in H. apply Leibniz.eqb_spec in H. rewrite H. reflexivity.
Qed.

Lemma same_color_is_1_witness :
  checkTextContrast tt (element "#1aF" "#1aF") None = Normal 1.
Proof. apply (same_color_is_1 tt _ _ "#1aF"); reflexivity. Defined.

(* ================================================================== *)
(** * Rounding to nearest *)
(* ================================================================== *)

Section Rounding.

Local Open Scope R_scope.

(** ** Powers of two *)

Lemma bpow_pos e : 0 < bpow e.
Proof. apply powerRZ_lt. lra. Qed.

Lemma bpow_add a b : bpow (a + b) = bpow a * bpow b.
Proof. apply powerRZ_add. lra. Qed.

Lemma bpow_0 : bpow 0 = 1.
Proof. reflexivity. Qed.

Lemma bpow_1 : bpow 1 = 2.
Proof. unfold bpow. simpl. lra. Qed.

Lemma bpow_opp a : bpow (- a) = / bpow a.
Proof. apply powerRZ_neg'. Qed.

Lemma bpow_cancel a : bpow a * bpow (- a) = 1.
Proof. rewrite <- bpow_add, Z.add_opp_diag_r. reflexivity. Qed.

Lemma bpow_IZR k : (0 <= k)%Z -> bpow k = IZR (2 ^ k).
Proof.
  intros Hk. unfold bpow.
  rewrite <- (Z2Nat.id k Hk) at 1. rewrite <- pow_powerRZ.
  rewrite pow_IZR, Z2Nat.id by assumption. reflexivity.
Qed.

Lemma bpow_le a b : (a <= b)%Z -> bpow a <= bpow b.
Proof.
  intros H. replace b with (a + (b - a))%Z by ring.
  rewrite bpow_add, (bpow_IZR (b - a)) by lia.
  assert (1 <= IZR (2 ^ (b - a))).
  { apply IZR_le. pose proof (Z.pow_pos_nonneg 2 (b - a)). lia. }
  pose proof (bpow_pos a). nra.
Qed.

Lemma bpow_lt a b : (a < b)%Z -> bpow a < bpow b.
Proof.
  intros H. replace b with (a + (b - a))%Z by ring.
  rewrite bpow_add, (bpow_IZR (b - a)) by lia.
  assert (2 <= IZR (2 ^ (b - a))).
  { apply IZR_le. replace (b - a)%Z with (Z.succ (b - a - 1)) by lia.
    rewrite Z.pow_succ_r by lia.
    pose proof (Z.pow_pos_nonneg 2 (b - a - 1)). lia. }
  pose proof (bpow_pos a). nra.
Qed.

Lemma bpow_lt_inv a b : bpow a < bpow b -> (a < b)%Z.
Proof.
  intros H. destruct (Z_lt_le_dec a b) as [|Hle]; [assumption|].
  apply bpow_le in Hle. lra.
Qed.

(** ** The number of binary digits of a mantissa *)

Lemma digits2_size p : digits2_pos p = Pos.size p.
Proof. induction p; simpl; congruence. Qed.

Lemma digits2_bounds (p : positive) :
  (2 ^ (Zpos (digits2_pos p) - 1) <= Zpos p < 2 ^ Zpos (digits2_pos p))%Z.
Proof.
  rewrite digits2_size. split.
  - pose proof (Pos.size_le p) as H.
    apply Pos2Z.pos_le_pos in H. rewrite Pos2Z.inj_pow in H.
    replace (Zpos (Pos.size p)) with (Z.succ (Zpos (Pos.size p) - 1)) in H by lia.
    rewrite Z.pow_succ_r in H by lia. lia.
  - pose proof (Pos.size_gt p) as H.
    apply Pos2Z.pos_lt_pos in H. rewrite Pos2Z.inj_pow in H. exact H.
Qed.

Lemma digits2_unique (p : positive) (k : Z) :
  (2 ^ (k - 1) <= Zpos p < 2 ^ k)%Z -> Zpos (digits2_pos p) = k.
Proof.
  intros [H1 H2]. pose proof (digits2_bounds p) as [H3 H4].
  assert (0 < k)%Z.
  { destruct (Z_lt_le_dec 0 k); [assumption|].
    assert (k = 0 \/ k < 0)%Z as [->| Hk] by lia.
    - simpl in H2. lia.
    - rewrite Z.pow_neg_r in H2 by lia. lia. }
  assert (Zpos (digits2_pos p) - 1 < k)%Z.
  { apply (Z.pow_lt_mono_r_iff 2); lia. }
  assert (k - 1 < Zpos (digits2_pos p))%Z.
  { apply (Z.pow_lt_mono_r_iff 2); lia. }
  lia.
Qed.

(** ** Locations and shifting to the right *)

Lemma locates_floor m t l : locates m t l -> IZR m <= t < IZR m + 1.
Proof. destruct l as [|[ | | ]]; simpl; lra. Qed.

Lemma loc_of_shr_record_of_loc m l :
  loc_of_shr_record (shr_record_of_loc m l) = l
  /\ shr_m (shr_record_of_loc m l) = m.
Proof. destruct l as [|[ | | ]]; split; reflexivity. Qed.

Lemma IZR_xO p : IZR (Zpos p~0) = 2 * IZR (Zpos p).
Proof. rewrite Pos2Z.inj_xO, mult_IZR. reflexivity. Qed.

Lemma IZR_xI p : IZR (Zpos p~1) = 2 * IZR (Zpos p) + 1.
Proof. rewrite Pos2Z.inj_xI, plus_IZR, mult_IZR. reflexivity. Qed.

(** One shift halves the scaled real and keeps its location right. *)
Lemma shr_1_locates (mrs : shr_record) (t : R) :
  (0 <= shr_m mrs)%Z ->
  locates (shr_m mrs) t (loc_of_shr_record mrs) ->
  (0 <= shr_m (shr_1 mrs))%Z
  /\ locates (shr_m (shr_1 mrs)) (t / 2) (loc_of_shr_record (shr_1 mrs)).
Proof.
  destruct mrs as [m r s]. cbn [shr_m].
  intros Hm H.
  destruct m as [|[p|p| ]|p]; [| | | |lia];
    destruct r, s; cbn [shr_1 shr_m loc_of_shr_record locates orb] in *;
    try rewrite (IZR_xO p) in H; try rewrite (IZR_xI p) in H;
    (split; [lia|]); lra.
Qed.

Lemma iter_pos_invariant {A} (f : A -> A) (Inv : Z -> A -> Prop) :
  (forall k a, Inv k a -> Inv (k + 1)%Z (f a)) ->
  forall p k a, Inv k a -> Inv (k + Zpos p)%Z (SpecFloat.iter_pos f p a).
Proof.
  intros Hstep. induction p as [p IH|p IH| ]; intros k a Ha; simpl.
  - replace (k + Zpos p~1)%Z with (k + 1 + Zpos p + Zpos p)%Z by lia.
    apply IH, IH, Hstep, Ha.
  - replace (k + Zpos p~0)%Z with (k + Zpos p + Zpos p)%Z by lia.
    apply IH, IH, Ha.
  - apply Hstep, Ha.
Qed.

(** Shifting right by [n >= 0] places. *)
Lemma shr_locates (m e n : Z) (l : location) (x : R) :
  (0 <= m)%Z -> (0 <= n)%Z ->
  locates m (x * bpow (- e)) l ->
  let '(mrs, e') := shr (shr_record_of_loc m l) e n in
  e' = (e + n)%Z /\ (0 <= shr_m mrs)%Z
  /\ locates (shr_m mrs) (x * bpow (- e')) (loc_of_shr_record mrs).
Proof.
  intros Hm Hn H.
  destruct (loc_of_shr_record_of_loc m l) as [El Em].
  destruct n as [|p|p]; [| |lia]; simpl.
  - rewrite El, Em. repeat split; [lia|assumption|assumption].
  - split; [reflexivity|].
    pose (Inv := fun (k : Z) (a : shr_record) =>
      (0 <= shr_m a)%Z
      /\ locates (shr_m a) (x * bpow (- (e + k))) (loc_of_shr_record a)).
    apply (iter_pos_invariant shr_1 Inv) with (k := 0%Z).
    + intros k a [Ha1 Ha2]. unfold Inv.
      replace (x * bpow (- (e + (k + 1)))) with (x * bpow (- (e + k)) / 2).
      * apply shr_1_locates; assumption.
      * replace (- (e + (k + 1)))%Z with (- (e + k) + - (1))%Z by ring.
        rewrite bpow_add, (bpow_opp 1), bpow_1. field.
    + unfold Inv. rewrite Z.add_0_r, El, Em. split; assumption.
Qed.

(** ** Rounding a located real *)

(** The mantissa is kept up to the midpoint and incremented from it. *)
Lemma round_nearest_even_cases (m : Z) (t : R) (l : location) :
  locates m t l ->
  (round_nearest_even m l = m /\ t <= IZR m + / 2)
  \/ (round_nearest_even m l = (m + 1)%Z /\ IZR m + / 2 <= t).
Proof.
  destruct l as [|[ | | ]]; simpl; intros H.
  - left. split; [reflexivity|lra].
  - destruct (Z.even m); [left|right]; split; try reflexivity; lra.
  - left. split; [reflexivity|lra].
  - right. split; [reflexivity|lra].
Qed.

(** Between two consecutive multiples of [2^E] with a full mantissa there
    is no number of the format. *)
Lemma format_gap (mf ef m1 E : Z) :
  is_format mf ef -> (2 ^ (prec - 1) <= m1)%Z -> (emin <= E)%Z ->
  F2R mf ef * bpow (- E) <= IZR m1 \/ IZR m1 + 1 <= F2R mf ef * bpow (- E).
Proof.
  intros [Hm He] Hm1 HE. unfold F2R. rewrite Rmult_assoc, <- bpow_add.
  destruct (Z_lt_le_dec ef E) as [Hlt|Hge].
  - left.
    assert (H1 : bpow (ef + - E) <= bpow (-1)) by (apply bpow_le; lia).
    assert (H2 : IZR mf < IZR (2 ^ prec)) by (apply IZR_lt; lia).
    assert (H3 : IZR (2 ^ (prec - 1)) <= IZR m1) by (apply IZR_le; assumption).
    assert (Hh : bpow (-1) = / 2) by (unfold bpow; simpl; lra).
    rewrite Hh in H1.
    pose proof (bpow_pos (ef + - E)) as H4.
    change (2 ^ prec)%Z with 9007199254740992%Z in H2.
    change (2 ^ (prec - 1))%Z with 4503599627370496%Z in H3.
    destruct (Rle_lt_dec (IZR mf) 0) as [Hneg|Hpos]; nra.
  - rewrite (bpow_IZR (ef + - E)) by lia. rewrite <- mult_IZR.
    destruct (Z_le_gt_dec (mf * 2 ^ (ef + - E)) m1) as [H|H].
    + left. apply IZR_le, H.
    + right. rewrite <- plus_IZR. apply IZR_le. lia.
Qed.

(** The neighbour chosen at the midpoint rule is a nearest number of the
    format. *)
Lemma rounds_to_scaled (x t : R) (m1 m2 E : Z) :
  x = t * bpow E ->
  IZR m1 <= t < IZR m1 + 1 ->
  (2 ^ (prec - 1) <= m1)%Z -> (emin <= E)%Z ->
  (m2 = m1 /\ t <= IZR m1 + / 2) \/ (m2 = (m1 + 1)%Z /\ IZR m1 + / 2 <= t) ->
  rounds_to x (F2R m2 E).
Proof.
  intros Hx Ht Hm1 HE Hm2 mf ef Hf.
  destruct (format_gap mf ef m1 E Hf Hm1 HE) as [Hg|Hg];
    set (phi := F2R mf ef * bpow (- E)) in *;
    assert (Ef : F2R mf ef = phi * bpow E)
      by (unfold phi; rewrite Rmult_assoc, (Rmult_comm (bpow (- E))), bpow_cancel; ring);
    rewrite Ef, Hx; unfold F2R at 1 2 3 4;
    pose proof (bpow_pos E) as HB;
    assert (Em : IZR m2 = IZR m1 \/ IZR m2 = IZR m1 + 1)
      by (destruct Hm2 as [[-> _]|[-> _]]; [left|right; rewrite plus_IZR]; reflexivity);
    split; intros H.
  - assert (phi < IZR m2) by nra.
    assert ((phi + IZR m2) / 2 <= t) by (destruct Hm2 as [[-> ?]|[-> ?]]; try rewrite plus_IZR in *; lra).
    nra.
  - assert (IZR m2 < phi) by nra.
    assert (t <= (IZR m2 + phi) / 2) by (destruct Hm2 as [[-> ?]|[-> ?]]; try rewrite plus_IZR in *; lra).
    nra.
  - assert (phi < IZR m2) by nra.
    assert ((phi + IZR m2) / 2 <= t) by (destruct Hm2 as [[-> ?]|[-> ?]]; try rewrite plus_IZR in *; lra).
    nra.
  - assert (IZR m2 < phi) by nra.
    assert (t <= (IZR m2 + phi) / 2) by (destruct Hm2 as [[-> ?]|[-> ?]]; try rewrite plus_IZR in *; lra).
    nra.
Qed.

(** Rounding a positive real located by [(mx, ex, lx)], in the normal range. *)
Lemma binary_round_aux_normal (mx ex : Z) (lx : location) (x : R) :
  (0 < mx)%Z ->
  locates mx (x * bpow (- ex)) lx ->
  (ex <= Zdigits2 mx + ex - prec)%Z ->
  (emin <= Zdigits2 mx + ex - prec)%Z ->
  (Zdigits2 mx + ex <= emax - 1)%Z ->
  exists m e,
    binary_round_aux prec emax false mx ex lx = S754_finite false m e
    /\ rounds_to x (F2R (Zpos m) e).
Proof.
  intros Hmx Hloc Hfine Hlo Hhi.
  set (E := (Zdigits2 mx + ex - prec)%Z) in *.
  unfold binary_round_aux, shr_fexp.
  assert (HfE : fexp prec emax (Zdigits2 mx + ex) = E)
    by (unfold fexp, E; apply Z.max_l; exact Hlo).
  rewrite HfE.
  pose proof (shr_locates mx ex (E - ex) lx x ltac:(lia) ltac:(lia) Hloc) as Hs.
  destruct (shr (shr_record_of_loc mx lx) ex (E - ex)) as [mrs1 e1].
  destruct Hs as (He1 & Hm1 & Hl1).
  replace (ex + (E - ex))%Z with E in He1 by lia. subst e1.
  set (t := x * bpow (- E)) in *.
  set (m1 := shr_m mrs1) in *.
  (* the scaled value has a full mantissa *)
  assert (Ht : IZR (2 ^ (prec - 1)) <= t < IZR (2 ^ prec)).
  { destruct mx as [|p|p]; try lia. simpl Zdigits2 in *.
    pose proof (digits2_bounds p) as [Hd1 Hd2].
    set (d := Zpos (digits2_pos p)) in *.
    apply locates_floor in Hloc.
    assert (Hx : t = x * bpow (- ex) * bpow (prec - d)).
    { unfold t. rewrite Rmult_assoc, <- bpow_add. f_equal. f_equal. unfold E. lia. }
    assert (H1 : bpow (d - 1) <= IZR (Zpos p)).
    { rewrite bpow_IZR by lia. apply IZR_le. assumption. }
    assert (H2 : IZR (Zpos p) + 1 <= bpow d).
    { rewrite bpow_IZR by lia. rewrite <- plus_IZR. apply IZR_le. lia. }
    pose proof (bpow_pos (prec - d)) as HB.
    assert (H3 : bpow (d - 1) * bpow (prec - d) = IZR (2 ^ (prec - 1))).
    { rewrite <- bpow_add, <- bpow_IZR by (unfold prec; lia). f_equal. lia. }
    assert (H4 : bpow d * bpow (prec - d) = IZR (2 ^ prec)).
    { rewrite <- bpow_add, <- bpow_IZR by (unfold prec; lia). f_equal. lia. }
    rewrite Hx. split; nra. }
  pose proof (locates_floor _ _ _ Hl1) as Hfl.
  assert (Hm1b : (2 ^ (prec - 1) <= m1 < 2 ^ prec)%Z).
  { change (2 ^ (prec - 1))%Z with 4503599627370496%Z in *.
    change (2 ^ prec)%Z with 9007199254740992%Z in *.
    split.
    - assert (IZR 4503599627370496 < IZR (m1 + 1)) by (rewrite plus_IZR; lra).
      apply lt_IZR in H. lia.
    - apply lt_IZR. lra. }
  pose proof (round_nearest_even_cases _ _ _ Hl1) as Hr.
  fold m1 in Hr.
  set (m2 := round_nearest_even m1 (loc_of_shr_record mrs1)) in *.
  assert (Hx : x = t * bpow E).
  { unfold t. rewrite Rmult_assoc, (Rmult_comm (bpow (- E))), bpow_cancel. ring. }
  assert (HEmin : (emin <= E)%Z) by exact Hlo.
  pose proof (rounds_to_scaled x t m1 m2 E Hx Hfl (proj1 Hm1b) HEmin Hr) as Hround.
  assert (Hm2 : (2 ^ (prec - 1) <= m2 < 2 ^ prec)%Z \/ m2 = (2 ^ prec)%Z)
    by (destruct Hr as [[-> _]|[-> _]]; lia).
  destruct Hm2 as [Hm2|Hm2].
  - destruct m2 as [|q|q] eqn:Eq; try (exfalso; change (2 ^ (prec - 1))%Z with 4503599627370496%Z in Hm2; lia).
    assert (Hd : Zdigits2 (Zpos q) = prec).
    { simpl. apply digits2_unique. exact Hm2. }
    rewrite Hd.
    assert (Hf2 : (fexp prec emax (prec + E) - E = 0)%Z).
    { unfold fexp. change (SpecFloat.emin prec emax) with emin. lia. }
    rewrite Hf2. simpl.
    assert (HEmax : (E <=? 971)%Z = true)
      by (apply Z.leb_le; unfold E; change emax with 1024%Z in Hhi; change prec with 53%Z; lia).
    rewrite HEmax. exists q, E. split; [reflexivity|exact Hround].
  - rewrite Hm2 in *.
    change (Zdigits2 (2 ^ prec)) with (prec + 1)%Z.
    assert (Hf2 : (fexp prec emax (prec + 1 + E) - E = 1)%Z).
    { unfold fexp. change (SpecFloat.emin prec emax) with emin. lia. }
    rewrite Hf2. simpl.
    assert (HEmax : (E + 1 <=? 971)%Z = true) by (apply Z.leb_le; unfold E; change emax with 1024%Z in Hhi; change prec with 53%Z; lia).
    rewrite HEmax. eexists _, _. split; [reflexivity|].
    replace (F2R 4503599627370496 (E + 1)) with (F2R (2 ^ prec) E); [exact Hround|].
    unfold F2R. rewrite bpow_add, bpow_1.
    change (2 ^ prec)%Z with (2 * 4503599627370496)%Z. rewrite mult_IZR. ring.
Qed.

(** ** Addition and division of positive numbers *)

(** The magnitude of a value, from the digits of its mantissa. *)
Lemma F2R_mag (p : positive) (e : Z) :
  bpow (Zpos (digits2_pos p) + e - 1) <= F2R (Zpos p) e
  < bpow (Zpos (digits2_pos p) + e).
Proof.
  pose proof (digits2_bounds p) as [H1 H2].
  set (d := Zpos (digits2_pos p)) in *.
  assert (H3 : bpow (d - 1) <= IZR (Zpos p))
    by (rewrite bpow_IZR by lia; apply IZR_le; assumption).
  assert (H4 : IZR (Zpos p) < bpow d)
    by (rewrite bpow_IZR by lia; apply IZR_lt; assumption).
  replace (d + e - 1)%Z with (d - 1 + e)%Z by ring.
  rewrite !bpow_add. unfold F2R. pose proof (bpow_pos e). split; nra.
Qed.

Lemma located_mag (p : positive) (t : R) (l : location) :
  locates (Zpos p) t l ->
  bpow (Zpos (digits2_pos p) - 1) <= t < bpow (Zpos (digits2_pos p)).
Proof.
  intros H. apply locates_floor in H.
  pose proof (digits2_bounds p) as [H1 H2].
  set (d := Zpos (digits2_pos p)) in *.
  assert (H3 : bpow (d - 1) <= IZR (Zpos p))
    by (rewrite bpow_IZR by lia; apply IZR_le; assumption).
  assert (H4 : IZR (Zpos p) + 1 <= bpow d)
    by (rewrite bpow_IZR by lia; rewrite <- plus_IZR; apply IZR_le; lia).
  lra.
Qed.

(** Alignment to a smaller exponent keeps the value. *)
Lemma shl_align_spec (mx : positive) (ex ex' : Z) :
  let '(mz, ez) := shl_align mx ex ex' in
  F2R (Zpos mz) ez = F2R (Zpos mx) ex
  /\ ez = Z.min ex ex'
  /\ (Zpos (digits2_pos mz) + ez = Zpos (digits2_pos mx) + ex)%Z.
Proof.
  unfold shl_align.
  destruct (ex' - ex)%Z as [|d|d] eqn:Ed.
  - repeat split; lia.
  - repeat split; lia.
  - assert (Hz : Zpos (Pos.iter xO mx d) = (2 ^ Zpos d * Zpos mx)%Z).
    { change (Pos.iter xO mx d) with (shift_pos d mx).
      rewrite shift_pos_correct, Z.pow_pos_fold. reflexivity. }
    assert (Hv : F2R (Zpos (Pos.iter xO mx d)) ex' = F2R (Zpos mx) ex).
    { unfold F2R. rewrite Hz, mult_IZR, <- bpow_IZR by lia.
      assert (Hb : bpow ex = bpow (Zpos d) * bpow ex')
        by (rewrite <- bpow_add; f_equal; lia).
      rewrite Hb. ring. }
    repeat split; [exact Hv|lia|].
    pose proof (F2R_mag (Pos.iter xO mx d) ex') as Ha.
    pose proof (F2R_mag mx ex) as Hb.
    rewrite Hv in Ha.
    assert (Zpos (digits2_pos (Pos.iter xO mx d)) + ex' - 1
            < Zpos (digits2_pos mx) + ex)%Z by (apply bpow_lt_inv; lra).
    assert (Zpos (digits2_pos mx) + ex - 1
            < Zpos (digits2_pos (Pos.iter xO mx d)) + ex')%Z by (apply bpow_lt_inv; lra).
    lia.
Qed.

Lemma binary_round_normal (mx : positive) (ex : Z) :
  (emin <= Zpos (digits2_pos mx) + ex - prec)%Z ->
  (Zpos (digits2_pos mx) + ex <= emax - 1)%Z ->
  exists m e,
    binary_round prec emax false mx ex = S754_finite false m e
    /\ rounds_to (F2R (Zpos mx) ex) (F2R (Zpos m) e).
Proof.
  intros Hlo Hhi. unfold binary_round.
  pose proof (shl_align_spec mx ex (fexp prec emax (Zpos (digits2_pos mx) + ex))) as Hs.
  destruct (shl_align mx ex (fexp prec emax (Zpos (digits2_pos mx) + ex))) as [mz ez].
  destruct Hs as (Hv & He & Hd).
  assert (HfE : fexp prec emax (Zpos (digits2_pos mx) + ex)
                = (Zpos (digits2_pos mx) + ex - prec)%Z)
    by (unfold fexp; apply Z.max_l; exact Hlo).
  rewrite HfE in He.
  rewrite <- Hv.
  apply binary_round_aux_normal; simpl Zdigits2; try lia.
  simpl. unfold F2R. rewrite Rmult_assoc, bpow_cancel. ring.
Qed.

(** The sum of two positive numbers is a nearest number to the exact sum. *)
Lemma SFadd_pos_normal (mx my : positive) (ex ey : Z) :
  bpow (emin + prec - 1) <= F2R (Zpos mx) ex + F2R (Zpos my) ey ->
  F2R (Zpos mx) ex + F2R (Zpos my) ey < bpow (emax - 1) ->
  exists m e,
    SFadd prec emax (S754_finite false mx ex) (S754_finite false my ey)
    = S754_finite false m e
    /\ rounds_to (F2R (Zpos mx) ex + F2R (Zpos my) ey) (F2R (Zpos m) e).
Proof.
  intros Hlo Hhi. unfold SFadd.
  pose proof (shl_align_spec mx ex (Z.min ex ey)) as Hx.
  pose proof (shl_align_spec my ey (Z.min ex ey)) as Hy.
  destruct (shl_align mx ex (Z.min ex ey)) as [mx' ex'].
  destruct (shl_align my ey (Z.min ex ey)) as [my' ey'].
  destruct Hx as (Hvx & Hex & _). destruct Hy as (Hvy & Hey & _).
  cbn [fst cond_Zopp]. 
  assert (Hex' : ex' = Z.min ex ey) by lia.
  assert (Hey' : ey' = Z.min ex ey) by lia.
  clear Hex Hey. subst ex' ey'. set (ez := Z.min ex ey) in *.
  change (Zpos mx' + Zpos my')%Z with (Zpos (mx' + my')).
  cbn [binary_normalize].
  assert (Hv : F2R (Zpos (mx' + my')) ez = F2R (Zpos mx) ex + F2R (Zpos my) ey).
  { rewrite <- Hvx, <- Hvy. unfold F2R. rewrite Pos2Z.inj_add, plus_IZR. ring. }
  rewrite <- Hv in *.
  pose proof (F2R_mag (mx' + my') ez) as Hm.
  apply binary_round_normal.
  - assert (emin + prec - 1 < Zpos (digits2_pos (mx' + my')) + ez)%Z
      by (apply bpow_lt_inv; lra). lia.
  - assert (Zpos (digits2_pos (mx' + my')) + ez - 1 < emax - 1)%Z
      by (apply bpow_lt_inv; lra). lia.
Qed.

(** The location of a quotient, from the remainder of the division. *)
Lemma new_location_spec (nb k q : Z) :
  (0 < nb)%Z -> (0 <= k < nb)%Z ->
  locates q (IZR q + IZR k / IZR nb) (new_location nb k).
Proof.
  intros Hnb Hk.
  assert (HN : 0 < IZR nb) by (apply IZR_lt; assumption).
  set (u := IZR k / IZR nb).
  assert (Hu : IZR k = u * IZR nb) by (unfold u; field; lra).
  assert (Hk0 : 0 <= IZR k) by (apply IZR_le; lia).
  assert (HkN : IZR k < IZR nb) by (apply IZR_lt; lia).
  assert (Hu1 : 0 <= u < 1) by (split; nra).
  unfold new_location.
  destruct (Z.eqb_spec k 0) as [->|Hk'].
  - assert (u = 0) by (unfold u; field; lra).
    destruct (Z.even nb); simpl; lra.
  - assert (0 < IZR k) by (apply IZR_lt; lia).
    assert (0 < u) by nra.
    destruct (Z.even nb) eqn:Ev.
    + unfold new_location_even. rewrite (proj2 (Z.eqb_neq k 0) Hk').
      destruct (Z.compare_spec (2 * k) nb) as [H1|H1|H1]; simpl.
      * apply (f_equal IZR) in H1. rewrite mult_IZR in H1.
        assert (2 * u = 1) by (apply (Rmult_eq_reg_r (IZR nb)); nra). lra.
      * apply IZR_lt in H1. rewrite mult_IZR in H1. split; nra.
      * apply IZR_lt in H1. rewrite mult_IZR in H1. split; nra.
    + assert (Hodd : (2 * k <> nb)%Z).
      { intros <-. rewrite Z.even_mul in Ev. discriminate. }
      unfold new_location_odd. rewrite (proj2 (Z.eqb_neq k 0) Hk').
      destruct (Z.compare_spec (2 * k + 1) nb) as [H1|H1|H1]; simpl.
      * assert (H2 : (2 * k < nb)%Z) by lia.
        apply IZR_lt in H2. rewrite mult_IZR in H2. split; nra.
      * assert (H2 : (2 * k < nb)%Z) by lia.
        apply IZR_lt in H2. rewrite mult_IZR in H2. split; nra.
      * assert (H2 : (nb < 2 * k)%Z) by lia.
        apply IZR_lt in H2. rewrite mult_IZR in H2. split; nra.
Qed.

(** The quotient of two positive numbers is a nearest number to the exact
    quotient. *)
Lemma SFdiv_pos_normal (mx my : positive) (ex ey : Z) :
  (emin + prec
   <= Zpos (digits2_pos mx) + ex - (Zpos (digits2_pos my) + ey))%Z ->
  (Zpos (digits2_pos mx) + ex - (Zpos (digits2_pos my) + ey) <= emax - 2)%Z ->
  exists m e,
    SFdiv prec emax (S754_finite false mx ex) (S754_finite false my ey)
    = S754_finite false m e
    /\ rounds_to (F2R (Zpos mx) ex / F2R (Zpos my) ey) (F2R (Zpos m) e).
Proof.
  intros Hlo Hhi.
  unfold SFdiv, SFdiv_core_binary. cbn [Zdigits2 xorb].
  set (d1 := Zpos (digits2_pos mx)) in *.
  set (d2 := Zpos (digits2_pos my)) in *.
  set (D0 := (d1 + ex - (d2 + ey))%Z) in *.
  assert (HfE : fexp prec emax D0 = (D0 - prec)%Z).
  { unfold fexp. change (SpecFloat.emin prec emax) with emin. lia. }
  rewrite HfE.
  set (e' := Z.min (D0 - prec) (ex - ey)).
  set (s := (ex - ey - e')%Z).
  assert (Hs : (0 <= s)%Z) by (unfold s, e'; lia).
  set (m' := match s with
             | 0%Z => Zpos mx
             | Zpos _ => Z.shiftl (Zpos mx) s
             | Zneg _ => 0%Z
             end).
  assert (Hm' : m' = (Zpos mx * 2 ^ s)%Z).
  { unfold m'. destruct s as [|p|p] eqn:Es.
    - rewrite Z.pow_0_r. lia.
    - apply Z.shiftl_mul_pow2. lia.
    - lia. }
  pose proof (Z_div_mod m' (Zpos my) ltac:(lia)) as Hdiv.
  destruct (Z.div_eucl m' (Zpos my)) as [q r].
  destruct Hdiv as [Hqr Hr].
  set (x := F2R (Zpos mx) ex / F2R (Zpos my) ey).
  pose proof (F2R_mag mx ex) as Hmx. pose proof (F2R_mag my ey) as Hmy.
  fold d1 in Hmx. fold d2 in Hmy.
  assert (Hy0 : 0 < F2R (Zpos my) ey).
  { unfold F2R. pose proof (bpow_pos ey).
    assert (0 < IZR (Zpos my)) by (apply IZR_lt; lia). nra. }
  assert (Hxy : x * F2R (Zpos my) ey = F2R (Zpos mx) ex)
    by (unfold x; field; lra).
  (* magnitude of the quotient *)
  assert (Hxlo : bpow (D0 - 1) < x).
  { assert (Hb : bpow (D0 - 1) * bpow (d2 + ey) = bpow (d1 + ex - 1))
      by (rewrite <- bpow_add; f_equal; unfold D0; lia).
    pose proof (bpow_pos (D0 - 1)). nra. }
  assert (Hxhi : x < bpow (D0 + 1)).
  { assert (Hb : bpow (D0 + 1) * bpow (d2 + ey - 1) = bpow (d1 + ex))
      by (rewrite <- bpow_add; f_equal; unfold D0; lia).
    pose proof (bpow_pos (D0 + 1)). nra. }
  (* the scaled quotient *)
  assert (Ht : x * bpow (- e') = IZR q + IZR r / IZR (Zpos my)).
  { assert (HN : 0 < IZR (Zpos my)) by (apply IZR_lt; lia).
    assert (E1 : IZR m' = IZR (Zpos my) * IZR q + IZR r)
      by (rewrite Hqr, plus_IZR, mult_IZR; reflexivity).
    assert (E2 : IZR m' = IZR (Zpos mx) * bpow s)
      by (rewrite Hm', mult_IZR, <- bpow_IZR by lia; reflexivity).
    assert (E3 : bpow ex * bpow (- e') = bpow s * bpow ey).
    { rewrite <- !bpow_add. f_equal. unfold s. lia. }
    pose proof (bpow_pos ey).
    unfold x, F2R.
    replace (IZR (Zpos mx) * bpow ex / (IZR (Zpos my) * bpow ey) * bpow (- e'))
      with (IZR (Zpos mx) * (bpow ex * bpow (- e')) / (IZR (Zpos my) * bpow ey))
      by (field; lra).
    rewrite E3.
    replace (IZR (Zpos mx) * (bpow s * bpow ey) / (IZR (Zpos my) * bpow ey))
      with (IZR (Zpos mx) * bpow s / IZR (Zpos my)) by (field; lra).
    rewrite <- E2, E1. field. lra. }
  assert (Hloc : locates q (x * bpow (- e')) (new_location (Zpos my) r)).
  { rewrite Ht. apply new_location_spec; lia. }
  assert (Htlo : bpow (prec - 1) < x * bpow (- e')).
  { assert (Hb : bpow (prec - 1) <= bpow (D0 - 1) * bpow (- e')).
    { rewrite <- bpow_add. apply bpow_le. unfold e'. lia. }
    pose proof (bpow_pos (- e')). nra. }
  assert (Hq : (0 < q)%Z).
  { apply locates_floor in Hloc.
    assert (H1 : 0 < IZR (q + 1)).
    { rewrite plus_IZR. pose proof (bpow_pos (prec - 1)). lra. }
    apply lt_IZR in H1.
    destruct (Z.eq_dec q 0) as [->|]; [|lia].
    exfalso. assert (bpow 0 <= bpow (prec - 1)) by (apply bpow_le; unfold prec; lia).
    rewrite bpow_0 in *. simpl in Hloc. lra. }
  destruct q as [|qp|qp]; try lia.
  pose proof (located_mag _ _ _ Hloc) as Hqm.
  set (dq := Zpos (digits2_pos qp)) in *.
  assert (Hxe : x = x * bpow (- e') * bpow e').
  { rewrite Rmult_assoc, (Rmult_comm (bpow (- e'))), bpow_cancel. ring. }
  assert (HDlo : (D0 - 1 < dq + e')%Z).
  { apply bpow_lt_inv. rewrite (bpow_add dq e').
    pose proof (bpow_pos e'). nra. }
  assert (HDhi : (dq - 1 + e' < D0 + 1)%Z).
  { apply bpow_lt_inv. rewrite (bpow_add (dq - 1) e').
    pose proof (bpow_pos e'). nra. }
  apply binary_round_aux_normal; cbn [Zdigits2]; fold dq;
    try assumption; unfold e' in *; lia.
Qed.

(** ** Valid numbers, their order and their values *)

(** A valid finite number has a canonical mantissa. *)
Lemma valid_finite (s : bool) (m : positive) (e : Z) :
  valid_binary (S754_finite s m e) = true ->
  (Zpos m < 2 ^ prec)%Z /\ (emin <= e)%Z
  /\ (e = emin \/ 2 ^ (prec - 1) <= Zpos m)%Z.
Proof.
  cbn [SpecFloat.valid_binary]. unfold SpecFloat.bounded, SpecFloat.canonical_mantissa, SpecFloat.fexp.
  rewrite andb_true_iff, Z.eqb_eq. intros [Hc _].
  change (SpecFloat.emin prec emax) with emin in Hc.
  pose proof (digits2_bounds m) as [H1 H2].
  set (d := Zpos (digits2_pos m)) in *.
  assert (Hd : (d <= prec)%Z) by lia.
  assert (H3 : (2 ^ d <= 2 ^ prec)%Z) by (apply Z.pow_le_mono_r; lia).
  repeat split; try lia.
  destruct (Z.eq_dec e emin) as [|Hne]; [left; assumption|right].
  assert (d = prec) by lia. subst d. rewrite <- H. exact H1.
Qed.

Lemma valid_format (f : spec_float) :
  valid_binary f = true -> format (SF2R f).
Proof.
  destruct f as [s|s| |s m e]; simpl SF2R; intros Hv;
    try (exists 0%Z, emin; split; [split; [reflexivity|lia]|unfold F2R; lra]).
  apply valid_finite in Hv. destruct Hv as (Hm & He & _).
  exists (cond_Zopp s (Zpos m)), e. split; [|reflexivity].
  split; [|assumption]. destruct s; cbn [cond_Zopp Z.opp Z.abs]; exact Hm.
Qed.

Lemma F2R_pos (m : positive) (e : Z) : 0 < F2R (Zpos m) e.
Proof.
  unfold F2R. pose proof (bpow_pos e).
  assert (0 < IZR (Zpos m)) by (apply IZR_lt; lia). nra.
Qed.

(** Comparison of non-negative numbers is comparison of their values. *)
Lemma SFcompare_nonneg (x y : spec_float) :
  valid_binary x = true -> valid_binary y = true ->
  nonneg_finite x -> nonneg_finite y ->
  exists c, SFcompare x y = Some c
    /\ match c with
       | Lt => SF2R x < SF2R y
       | Eq => SF2R x = SF2R y
       | Gt => SF2R y < SF2R x
       end.
Proof.
  intros Vx Vy Nx Ny.
  destruct x as [sx|sx| |sx mx ex], y as [sy|sy| |sy my ey];
    try contradiction; try (destruct sx; try contradiction);
    try (destruct sy; try contradiction); cbn [SFcompare SF2R cond_Zopp];
    try (eexists; split; [reflexivity|]; cbn iota;
         first [reflexivity | apply F2R_pos]).
  apply valid_finite in Vx, Vy.
  destruct Vx as (Hmx & Hex & Hcx). destruct Vy as (Hmy & Hey & Hcy).
  assert (Hcross : forall (m1 m2 : positive) (e1 e2 : Z),
             (Zpos m1 < 2 ^ prec)%Z -> (2 ^ (prec - 1) <= Zpos m2)%Z ->
             (e1 < e2)%Z -> F2R (Zpos m1) e1 < F2R (Zpos m2) e2).
  { intros m1 m2 e1 e2 H1 H2 He. unfold F2R.
    apply IZR_lt in H1. apply IZR_le in H2.
    change (2 ^ prec)%Z with 9007199254740992%Z in H1.
    change (2 ^ (prec - 1))%Z with 4503599627370496%Z in H2.
    assert (Hb : 2 * bpow e1 <= bpow e2).
    { rewrite <- bpow_1, <- bpow_add. apply bpow_le. lia. }
    pose proof (bpow_pos e1). pose proof (bpow_pos e2). nra. }
  destruct (Z.compare_spec ex ey) as [He|He|He].
  - subst ey. change (Pos.compare_cont Eq mx my) with (Pos.compare mx my).
    exists (Pos.compare mx my). split; [reflexivity|].
    pose proof (bpow_pos ex). unfold F2R.
    destruct (Pos.compare_spec mx my) as [Hm|Hm|Hm].
    + subst. reflexivity.
    + apply Pos2Z.pos_lt_pos, IZR_lt in Hm. nra.
    + apply Pos2Z.pos_lt_pos, IZR_lt in Hm. nra.
  - exists Lt. split; [reflexivity|]. apply Hcross; lia.
  - exists Gt. split; [reflexivity|]. apply Hcross; lia.
Qed.

Lemma SFleb_nonneg (x y : spec_float) :
  valid_binary x = true -> valid_binary y = true ->
  nonneg_finite x -> nonneg_finite y ->
  SFleb x y = true <-> SF2R x <= SF2R y.
Proof.
  intros Vx Vy Nx Ny.
  destruct (SFcompare_nonneg x y Vx Vy Nx Ny) as (c & Hc & Hv).
  unfold SFleb. rewrite Hc. destruct c; split; intros H;
    try reflexivity; try discriminate; lra.
Qed.

Lemma SFltb_nonneg (x y : spec_float) :
  valid_binary x = true -> valid_binary y = true ->
  nonneg_finite x -> nonneg_finite y ->
  SFltb x y = true <-> SF2R x < SF2R y.
Proof.
  intros Vx Vy Nx Ny.
  destruct (SFcompare_nonneg x y Vx Vy Nx Ny) as (c & Hc & Hv).
  unfold SFltb. rewrite Hc. destruct c; split; intros H;
    try reflexivity; try discriminate; lra.
Qed.

(** Equal values: the same number, or two zeros. *)
Lemma SF2R_eq_nonneg (x y : spec_float) :
  valid_binary x = true -> valid_binary y = true ->
  nonneg_finite x -> nonneg_finite y ->
  SF2R x = SF2R y ->
  x = y \/ (exists s1 s2, x = S754_zero s1 /\ y = S754_zero s2).
Proof.
  intros Vx Vy Nx Ny E.
  destruct (SFcompare_nonneg x y Vx Vy Nx Ny) as (c & Hc & Hv).
  destruct c; try lra.
  exact (SFcompare_Eq x y Hc).
Qed.

(** ** Consequences of rounding to nearest *)

Lemma rounds_to_exact (x : R) : rounds_to x x.
Proof. intros mf ef _. split; lra. Qed.

Lemma rounds_to_ge (x r f : R) :
  rounds_to x r -> format f -> f <= x -> f <= r.
Proof.
  intros Hr (mf & ef & Hf & ->) Hle.
  destruct (Hr mf ef Hf) as [_ H2].
  destruct (Rle_lt_dec (F2R mf ef) r) as [|Hlt]; [assumption|].
  specialize (H2 Hlt). lra.
Qed.

Lemma rounds_to_le (x r f : R) :
  rounds_to x r -> format f -> x <= f -> r <= f.
Proof.
  intros Hr (mf & ef & Hf & ->) Hle.
  destruct (Hr mf ef Hf) as [H1 _].
  destruct (Rle_lt_dec r (F2R mf ef)) as [|Hlt]; [assumption|].
  specialize (H1 Hlt). lra.
Qed.

Lemma rounds_to_mono (x1 x2 r1 r2 : R) :
  rounds_to x1 r1 -> rounds_to x2 r2 -> format r1 -> format r2 ->
  x1 < x2 -> r1 <= r2.
Proof.
  intros H1 H2 (m1 & e1 & F1 & ->) (m2 & e2 & F2 & ->) Hlt.
  destruct (Rle_lt_dec (F2R m1 e1) (F2R m2 e2)) as [|Hgt]; [assumption|].
  destruct (H1 m2 e2 F2) as [Ha _]. destruct (H2 m1 e1 F1) as [_ Hb].
  specialize (Ha Hgt). specialize (Hb Hgt). lra.
Qed.

End Rounding.

(* ================================================================== *)
(** * Luminances and their ratio *)
(* ================================================================== *)

Section Luminances.

Local Open Scope R_scope.

(** ** Numbers and their values *)

Lemma val_format (x : float) : format (val x).
Proof. apply valid_format, Prim2SF_valid. Qed.

Lemma leb_val (x y : float) :
  nonneg_finite (Prim2SF x) -> nonneg_finite (Prim2SF y) ->
  (x <=? y)%float = true <-> val x <= val y.
Proof.
  intros Nx Ny. rewrite leb_spec.
  apply SFleb_nonneg; auto using Prim2SF_valid.
Qed.

Lemma ltb_val (x y : float) :
  nonneg_finite (Prim2SF x) -> nonneg_finite (Prim2SF y) ->
  (x <? y)%float = true <-> val x < val y.
Proof.
  intros Nx Ny. rewrite ltb_spec.
  apply SFltb_nonneg; auto using Prim2SF_valid.
Qed.

(** A number between two non-negative finite numbers is one too. *)
Lemma between_nonneg (a b x : float) :
  nonneg_finite (Prim2SF a) -> nonneg_finite (Prim2SF b) ->
  (a <=? x)%float = true -> (x <=? b)%float = true ->
  nonneg_finite (Prim2SF x).
Proof.
  rewrite !leb_spec. unfold SFleb. intros Na Nb.
  destruct (Prim2SF a) as [sa|sa| |[|] ma ea]; try contradiction;
    destruct (Prim2SF b) as [sb|sb| |[|] mb eb]; try contradiction;
    destruct (Prim2SF x) as [s|[|]| |[|] m e]; simpl; trivial;
    discriminate.
Qed.

Lemma val_eq (x y : float) :
  nonneg_finite (Prim2SF x) -> nonneg_finite (Prim2SF y) ->
  val x = val y ->
  x = y \/ ((x = 0 \/ x = -0) /\ (y = 0 \/ y = -0))%float.
Proof.
  intros Nx Ny E.
  destruct (SF2R_eq_nonneg _ _ (Prim2SF_valid x) (Prim2SF_valid y) Nx Ny E)
    as [H|(s1 & s2 & H1 & H2)].
  - left. apply Prim2SF_inj, H.
  - right. split; eapply zero_cases; eassumption.
Qed.

Lemma val_pos_finite (x : float) :
  nonneg_finite (Prim2SF x) -> 0 < val x ->
  exists m e, Prim2SF x = S754_finite false m e.
Proof.
  unfold val. destruct (Prim2SF x) as [s|s| |[|] m e]; simpl;
    try contradiction; try lra; eauto.
Qed.

Lemma val_nonneg (x : float) : nonneg_finite (Prim2SF x) -> 0 <= val x.
Proof.
  unfold val. destruct (Prim2SF x) as [s|s| |[|] m e]; simpl;
    try contradiction; try lra.
  intros _. pose proof (F2R_pos m e). simpl. lra.
Qed.

(** Addition of a positive constant to a non-negative number. *)
Lemma add_nonneg_pos (x c : float) :
  nonneg_finite (Prim2SF x) -> nonneg_finite (Prim2SF c) ->
  bpow (emin + prec - 1) <= val c ->
  val x + val c < bpow (emax - 1) ->
  exists m e, Prim2SF (x + c) = S754_finite false m e
    /\ rounds_to (val x + val c) (F2R (Zpos m) e).
Proof.
  intros Nx Nc Hlo Hhi.
  assert (Hc : 0 < val c) by (pose proof (bpow_pos (emin + prec - 1)); lra).
  destruct (val_pos_finite c Nc Hc) as (mc & ec & Ec).
  rewrite add_spec. unfold val in *. rewrite Ec in *.
  destruct (Prim2SF x) as [s|s| |[|] m e]; try contradiction.
  - exists mc, ec. split; [reflexivity|].
    cbn [SF2R cond_Zopp]. rewrite Rplus_0_l. apply rounds_to_exact.
  - cbn [SF2R cond_Zopp] in *.
    apply SFadd_pos_normal; [|assumption].
    pose proof (F2R_pos m e). lra.
Qed.

(** Division of positive numbers, the quotient in the normal range. *)
Lemma div_pos_pos (n d : float) (a1 b1 a2 b2 : Z) :
  nonneg_finite (Prim2SF n) -> nonneg_finite (Prim2SF d) ->
  bpow a1 <= val n < bpow b1 -> bpow a2 <= val d < bpow b2 ->
  (emin + prec <= a1 + 1 - b2)%Z -> (b1 - (a2 + 1) <= emax - 2)%Z ->
  exists m e, Prim2SF (n / d) = S754_finite false m e
    /\ rounds_to (val n / val d) (F2R (Zpos m) e).
Proof.
  intros Nn Nd Hn Hd Hlo Hhi.
  assert (Hn0 : 0 < val n) by (pose proof (bpow_pos a1); lra).
  assert (Hd0 : 0 < val d) by (pose proof (bpow_pos a2); lra).
  destruct (val_pos_finite n Nn Hn0) as (mn & en & En).
  destruct (val_pos_finite d Nd Hd0) as (md & ed & Ed).
  rewrite div_spec. unfold val in *. rewrite En, Ed in *.
  cbn [SF2R cond_Zopp] in *.
  pose proof (F2R_mag mn en) as Mn. pose proof (F2R_mag md ed) as Md.
  assert (a1 < Zpos (digits2_pos mn) + en)%Z by (apply bpow_lt_inv; lra).
  assert (Zpos (digits2_pos mn) + en - 1 < b1)%Z by (apply bpow_lt_inv; lra).
  assert (a2 < Zpos (digits2_pos md) + ed)%Z by (apply bpow_lt_inv; lra).
  assert (Zpos (digits2_pos md) + ed - 1 < b2)%Z by (apply bpow_lt_inv; lra).
  apply SFdiv_pos_normal; lia.
Qed.

(** ** The constants of the ratio *)

Lemma bpow_neg (k : Z) : (0 <= k)%Z -> bpow (- k) = / IZR (2 ^ k).
Proof. intros H. rewrite bpow_opp, bpow_IZR by assumption. reflexivity. Qed.

Lemma val_0 : val 0%float = 0.
Proof. reflexivity. Qed.

Lemma val_neg_0 : val (-0)%float = 0.
Proof. reflexivity. Qed.

Lemma F2R_one_bit (e : Z) : F2R 4503599627370496 e = bpow (52 + e).
Proof.
  unfold F2R. rewrite bpow_add, (bpow_IZR 52) by lia. reflexivity.
Qed.

Lemma val_1 : val 1%float = 1.
Proof.
  change (val 1%float) with (F2R 4503599627370496 (- (52))).
  unfold F2R. rewrite bpow_neg by lia.
  change (2 ^ 52)%Z with 4503599627370496%Z. field.
Qed.

Lemma val_21 : val 21%float = 21.
Proof.
  change (val 21%float) with (F2R 5910974510923776 (- (48))).
  unfold F2R. rewrite bpow_neg by lia.
  change (2 ^ 48)%Z with 281474976710656%Z. lra.
Qed.

Lemma val_offset : val 0.05%float = F2R 7205759403792794 (-57).
Proof. reflexivity. Qed.

Lemma val_top : val (1 + 0.05)%float = F2R 4728779608739021 (-52).
Proof. reflexivity. Qed.

Lemma val_offset_bounds : bpow (-5) <= val 0.05%float < bpow (-4).
Proof. rewrite val_offset. apply (F2R_mag 7205759403792794 (-57)). Qed.

Lemma val_top_bounds : bpow 0 <= val (1 + 0.05)%float < bpow 1.
Proof. rewrite val_top. apply (F2R_mag 4728779608739021 (-52)). Qed.

Lemma val_top_le : val (1 + 0.05)%float <= 21 * val 0.05%float.
Proof.
  rewrite val_top, val_offset. unfold F2R.
  assert (H : bpow (-52) = 32 * bpow (-57)).
  { change (-52)%Z with (5 + -57)%Z. rewrite bpow_add, (bpow_IZR 5) by lia.
    reflexivity. }
  rewrite H. pose proof (bpow_pos (-57)). lra.
Qed.

Lemma format_1 : format 1.
Proof.
  exists 1%Z, 0%Z. split; [split; [reflexivity|discriminate]|].
  unfold F2R. rewrite bpow_0. lra.
Qed.

Lemma format_21 : format 21.
Proof.
  exists 21%Z, 0%Z. split; [split; [reflexivity|discriminate]|].
  unfold F2R. rewrite bpow_0. lra.
Qed.

Lemma nonneg_0 : nonneg_finite (Prim2SF 0%float).
Proof. exact I. Qed.

Lemma nonneg_1 : nonneg_finite (Prim2SF 1%float).
Proof. exact I. Qed.

(** ** Luminances in the unit interval *)

Lemma in_unit_val (l : float) :
  in_unit l = true -> nonneg_finite (Prim2SF l) /\ 0 <= val l <= 1.
Proof.
  unfold in_unit. rewrite andb_true_iff. intros [H0 H1].
  assert (N : nonneg_finite (Prim2SF l))
    by (apply (between_nonneg 0 1); auto using nonneg_0, nonneg_1).
  split; [assumption|].
  apply (leb_val 0 l nonneg_0 N) in H0. apply (leb_val l 1 N nonneg_1) in H1.
  rewrite val_0 in H0. rewrite val_1 in H1. lra.
Qed.

Lemma in_unit_not_nan (l : float) : in_unit l = true -> is_nan l = false.
Proof.
  intros H. destruct (is_nan l) eqn:E; [|reflexivity].
  apply is_nan_true in E. subst. discriminate.
Qed.

(** ** The offset added to a luminance *)

(** The sum is positive, finite and a nearest number to the exact sum. *)
Lemma offset_spec (l : float) :
  in_unit l = true ->
  exists m e, Prim2SF (l + 0.05) = S754_finite false m e
    /\ rounds_to (val l + val 0.05%float) (F2R (Zpos m) e).
Proof.
  intros H. apply in_unit_val in H. destruct H as [N [H0 H1]].
  pose proof val_offset_bounds as [Ha Hb].
  apply add_nonneg_pos; try assumption.
  - exact I.
  - assert (bpow (emin + prec - 1) <= bpow (-5))
      by (apply bpow_le; unfold SpecFloat.emin, emax, prec; lia).
    lra.
  - assert (bpow (-4) <= bpow 0) by (apply bpow_le; lia).
    assert (bpow 1 <= bpow (emax - 1)) by (apply bpow_le; unfold emax; lia).
    rewrite bpow_0 in *. rewrite bpow_1 in *. lra.
Qed.

Lemma offset_val (l : float) :
  in_unit l = true ->
  nonneg_finite (Prim2SF (l + 0.05))
  /\ rounds_to (val l + val 0.05%float) (val (l + 0.05)).
Proof.
  intros H. destruct (offset_spec l H) as (m & e & E & Hr).
  unfold val at 3. rewrite E. split; [exact I|exact Hr].
Qed.

Lemma offset_mono (l1 l2 : float) :
  in_unit l1 = true -> in_unit l2 = true -> val l1 <= val l2 ->
  val (l1 + 0.05) <= val (l2 + 0.05).
Proof.
  intros H1 H2 Hle.
  destruct (offset_val l1 H1) as [_ R1]. destruct (offset_val l2 H2) as [_ R2].
  destruct (in_unit_val l1 H1) as [N1 _]. destruct (in_unit_val l2 H2) as [N2 _].
  destruct Hle as [Hlt|Heq].
  - apply (rounds_to_mono (val l1 + val 0.05%float) (val l2 + val 0.05%float));
      auto using val_format. lra.
  - destruct (val_eq l1 l2 N1 N2 Heq) as [->|[[-> | ->] [-> | ->]]];
      apply Req_le; reflexivity.
Qed.

Lemma offset_range (l : float) :
  in_unit l = true ->
  nonneg_finite (Prim2SF (l + 0.05))
  /\ val 0.05%float <= val (l + 0.05) <= val (1 + 0.05)%float.
Proof.
  intros H. destruct (in_unit_val l H) as [N [H0 H1]].
  split; [apply offset_val, H|]. split.
  - change (val 0.05%float) with (val (0 + 0.05)%float).
    apply offset_mono; auto; rewrite val_0; assumption.
  - apply offset_mono; auto; rewrite val_1; assumption.
Qed.

(** ** The quotient of two offset luminances *)

Lemma quotient_spec (n d : float) :
  offset_like n -> offset_like d ->
  nonneg_finite (Prim2SF (n / d))
  /\ rounds_to (val n / val d) (val (n / d)).
Proof.
  intros [Nn Hn] [Nd Hd].
  pose proof val_offset_bounds. pose proof val_top_bounds.
  destruct (div_pos_pos n d (-5) 1 (-5) 1) as (m & e & E & Hr);
    try assumption; try (split; lra);
    try (unfold SpecFloat.emin, emax, prec; lia).
  unfold val at 3. rewrite E. split; [exact I|exact Hr].
Qed.

Lemma offset_like_pos (n : float) : offset_like n -> 0 < val n.
Proof.
  intros [_ H]. pose proof val_offset_bounds. pose proof (bpow_pos (-5)). lra.
Qed.

Lemma offset_like_eq (n1 n2 : float) :
  offset_like n1 -> offset_like n2 -> val n1 = val n2 -> n1 = n2.
Proof.
  intros H1 H2 E. pose proof (offset_like_pos n1 H1) as P1.
  destruct H1 as [N1 _], H2 as [N2 _].
  destruct (val_eq n1 n2 N1 N2 E) as [|[[-> | ->] _]]; [assumption| |];
    exfalso; revert P1; rewrite ?val_0, ?val_neg_0; lra.
Qed.

Lemma quotient_mono_num (n1 n2 d : float) :
  offset_like n1 -> offset_like n2 -> offset_like d ->
  val n1 <= val n2 -> val (n1 / d) <= val (n2 / d).
Proof.
  intros H1 H2 Hd Hle.
  destruct (quotient_spec n1 d H1 Hd) as [_ R1].
  destruct (quotient_spec n2 d H2 Hd) as [_ R2].
  pose proof (offset_like_pos d Hd) as Pd.
  destruct Hle as [Hlt|Heq].
  - apply (rounds_to_mono (val n1 / val d) (val n2 / val d));
      auto using val_format.
    unfold Rdiv. apply Rmult_lt_compat_r; [apply Rinv_0_lt_compat|]; assumption.
  - rewrite (offset_like_eq n1 n2 H1 H2 Heq). apply Rle_refl.
Qed.

Lemma quotient_anti_den (n d1 d2 : float) :
  offset_like n -> offset_like d1 -> offset_like d2 ->
  val d1 <= val d2 -> val (n / d2) <= val (n / d1).
Proof.
  intros Hn H1 H2 Hle.
  destruct (quotient_spec n d1 Hn H1) as [_ R1].
  destruct (quotient_spec n d2 Hn H2) as [_ R2].
  pose proof (offset_like_pos d1 H1) as P1.
  pose proof (offset_like_pos d2 H2) as P2.
  pose proof (offset_like_pos n Hn) as Pn.
  destruct Hle as [Hlt|Heq].
  - apply (rounds_to_mono (val n / val d2) (val n / val d1));
      auto using val_format.
    unfold Rdiv. apply Rmult_lt_compat_l; [assumption|].
    apply Rinv_lt_contravar; [|assumption]. apply Rmult_lt_0_compat; assumption.
  - rewrite (offset_like_eq d1 d2 H1 H2 Heq). apply Rle_refl.
Qed.

Lemma quotient_range (n d : float) :
  offset_like n -> offset_like d -> val d <= val n ->
  1 <= val (n / d) <= 21.
Proof.
  intros Hn Hd Hle.
  destruct (quotient_spec n d Hn Hd) as [_ R].
  pose proof (offset_like_pos d Hd) as Pd.
  destruct Hn as [_ [_ Hn]]. destruct Hd as [_ [Hd _]].
  pose proof val_top_le.
  split.
  - apply (rounds_to_ge _ _ 1 R format_1).
    apply (Rmult_le_reg_r (val d)); [assumption|].
    unfold Rdiv. rewrite Rmult_assoc, Rinv_l by lra. lra.
  - apply (rounds_to_le _ _ 21 R format_21).
    apply (Rmult_le_reg_r (val d)); [assumption|].
    unfold Rdiv. rewrite Rmult_assoc, Rinv_l by lra. lra.
Qed.

(** ** The ratio calculator on luminances *)

Lemma offset_like_offset (l : float) :
  in_unit l = true -> offset_like (l + 0.05).
Proof. intros H. apply offset_range, H. Qed.

(** With the order of the two luminances known, the maximum and the minimum
    are resolved. *)
Lemma contrastRatio_ordered (f b : float) :
  in_unit f = true -> in_unit b = true -> val b <= val f ->
  contrastRatio f b = ((f + 0.05) / (b + 0.05))%float
  /\ contrastRatio b f = ((f + 0.05) / (b + 0.05))%float.
Proof.
  intros Hf Hb Hle.
  destruct (in_unit_val f Hf) as [Nf _]. destruct (in_unit_val b Hb) as [Nb _].
  pose proof (in_unit_not_nan f Hf) as Ef. pose proof (in_unit_not_nan b Hb) as Eb.
  unfold contrastRatio, Math.max, Math.min. rewrite Ef, Eb.
  destruct (number_trichotomy f b Ef Eb) as [H|[H|[H|[Hzf Hzb]]]].
  - apply (ltb_val f b Nf Nb) in H. lra.
  - rewrite H, (ltb_asym _ _ H).
    split; split_eqb; simpl; try reflexivity; vm_compute in H; discriminate.
  - subst b. rewrite ltb_irrefl.
    split; split_eqb; simpl; reflexivity.
  - destruct Hzf as [-> | ->], Hzb as [-> | ->]; split; reflexivity.
Qed.

(** The ratio of two luminances lies between 1 and 21. *)
Lemma contrastRatio_range (l1 l2 : float) :
  in_unit l1 = true -> in_unit l2 = true ->
  (1 <=? contrastRatio l1 l2)%float = true
  /\ (contrastRatio l1 l2 <=? 21)%float = true.
Proof.
  intros H1 H2.
  assert (Hgen : forall f b, in_unit f = true -> in_unit b = true ->
            val b <= val f ->
            let r := ((f + 0.05) / (b + 0.05))%float in
            (1 <=? r)%float = true /\ (r <=? 21)%float = true).
  { intros f b Hf Hb Hle r.
    pose proof (offset_like_offset f Hf) as Of.
    pose proof (offset_like_offset b Hb) as Ob.
    assert (Hnd : val (b + 0.05) <= val (f + 0.05)) by (apply offset_mono; assumption).
    destruct (quotient_spec _ _ Of Ob) as [Nr _].
    destruct (quotient_range _ _ Of Ob Hnd) as [Ha Hb'].
    fold r in Nr, Ha, Hb'.
    split.
    - apply leb_val; [exact I|assumption|]. rewrite val_1. assumption.
    - apply leb_val; [assumption|exact I|]. rewrite val_21. assumption. }
  destruct (Rle_lt_dec (val l2) (val l1)) as [Hle|Hlt].
  - destruct (contrastRatio_ordered l1 l2 H1 H2 Hle) as [-> _].
    apply Hgen; assumption.
  - destruct (contrastRatio_ordered l2 l1 H2 H1 (Rlt_le _ _ Hlt)) as [_ ->].
    apply Hgen; try assumption. lra.
Qed.

(** On each side of the background luminance the ratio does not decrease as
    the foreground luminance moves away. *)
Lemma contrastRatio_monotone_above (b f1 f2 : float) :
  in_unit b = true -> in_unit f1 = true -> in_unit f2 = true ->
  val b <= val f1 -> val f1 <= val f2 ->
  val (contrastRatio f1 b) <= val (contrastRatio f2 b).
Proof.
  intros Hb H1 H2 Hb1 H12.
  destruct (contrastRatio_ordered f1 b H1 Hb Hb1) as [-> _].
  destruct (contrastRatio_ordered f2 b H2 Hb ltac:(lra)) as [-> _].
  apply quotient_mono_num; try (apply offset_like_offset; assumption).
  apply offset_mono; assumption.
Qed.

Lemma contrastRatio_monotone_below (b f1 f2 : float) :
  in_unit b = true -> in_unit f1 = true -> in_unit f2 = true ->
  val f2 <= val f1 -> val f1 <= val b ->
  val (contrastRatio f1 b) <= val (contrastRatio f2 b).
Proof.
  intros Hb H1 H2 H21 H1b.
  destruct (contrastRatio_ordered b f1 Hb H1 H1b) as [_ ->].
  destruct (contrastRatio_ordered b f2 Hb H2 ltac:(lra)) as [_ ->].
  apply quotient_anti_den; try (apply offset_like_offset; assumption).
  apply offset_mono; assumption.
Qed.

Lemma contrastRatio_nonneg (l1 l2 : float) :
  in_unit l1 = true -> in_unit l2 = true ->
  nonneg_finite (Prim2SF (contrastRatio l1 l2)).
Proof.
  intros H1 H2.
  destruct (Rle_lt_dec (val l2) (val l1)) as [Hle|Hlt].
  - destruct (contrastRatio_ordered l1 l2 H1 H2 Hle) as [-> _].
    apply quotient_spec; apply offset_like_offset; assumption.
  - destruct (contrastRatio_ordered l2 l1 H2 H1 (Rlt_le _ _ Hlt)) as [_ ->].
    apply quotient_spec; apply offset_like_offset; assumption.
Qed.

(** ** The entry point on valid colours *)
Lemma unit_on_channels : for_all_channels unit_ok = true.
Proof. vm_compute. reflexivity. Qed.

Lemma luminance_of_valid_color (c : string) :
  valid_hex_color c = true ->
  in_unit (relativeLuminance (normalizeColor (toRGB.hex_string c))) = true.
Proof.
  intros Hv.
  destruct (hex_string_channels c Hv) as (r & g & b & E & Hr & Hg & Hb).
  rewrite E. exact (for_all_channels_spec _ unit_on_channels r g b Hr Hg Hb).
Qed.

(** C2: for valid hex colours as text colour and background colour, the
    entry point returns a Number that is at least 1 and at most 21. *)
Theorem contrast_between_1_and_21 {A} (app : A) (text : Element)
    (background : option Element) (fg bg : string) :
  valid_hex_color fg = true -> valid_hex_color bg = true ->
  color (style text) = JSString fg ->
  backgroundColor (style (default_arg background text)) = JSString bg ->
  exists v : float,
    checkTextContrast app text background = Normal v
    /\ (1 <=? v)%float = true /\ (v <=? 21)%float = true.
Proof.
  intros Vf Vb Hf Hb.
  rewrite (checkTextContrast_strings app _ _ _ _ Hf Hb).
  eexists. split; [reflexivity|].
  apply contrastRatio_range; apply luminance_of_valid_color; assumption.
Qed.

Lemma contrast_between_1_and_21_witness :
  exists v : float,
    checkTextContrast tt (element "#767676" "#fff") (Some (element "" "#FFFFFF"))
    = Normal v
    /\ (1 <=? v)%float = true /\ (v <=? 21)%float = true.
Proof.
  apply (contrast_between_1_and_21 tt _ _ "#767676" "#FFFFFF"); reflexivity.
Defined.

(** C6 (fails on the code): the ratio is not monotone in the distance from
    the background luminance when the two foregrounds lie on opposite
    sides.  With background 0.5, the foreground 1 is further away than the
    foreground 0.125, yet its ratio is smaller. *)
Theorem contrastRatio_not_monotone_in_distance : ~ monotone_in_distance.
Proof.
  intros H.
  specialize (H 0.5 0.125 1 eq_refl eq_refl eq_refl)%float.
  assert (Hd : Rabs (val 0.125 - val 0.5) < Rabs (val 1 - val 0.5)).
  { rewrite val_1.
    change (val 0.5%float) with (F2R 4503599627370496 (-53)).
    change (val 0.125%float) with (F2R 4503599627370496 (-55)).
    rewrite !F2R_one_bit. change (52 + -53)%Z with (- (1))%Z.
    change (52 + -55)%Z with (- (3))%Z. rewrite !bpow_neg by lia.
    change (2 ^ 1)%Z with 2%Z. change (2 ^ 3)%Z with 8%Z.
    unfold Rabs. repeat destruct Rcase_abs; lra. }
  specialize (H Hd). vm_compute in H. discriminate.
Qed.

(** C6, amended: with the background luminance fixed, and the two
    foreground luminances on the same side of it, the ratio does not
    decrease as the foreground moves away from the background. *)
Theorem contrastRatio_monotone_on_each_side (b f1 f2 : float) :
  in_unit b = true -> in_unit f1 = true -> in_unit f2 = true ->
  ((b <=? f1) && (f1 <=? f2) || (f2 <=? f1) && (f1 <=? b))%float = true ->
  (contrastRatio f1 b <=? contrastRatio f2 b)%float = true.
Proof.
  intros Hb H1 H2 H.
  destruct (in_unit_val b Hb) as [Nb _].
  destruct (in_unit_val f1 H1) as [N1 _].
  destruct (in_unit_val f2 H2) as [N2 _].
  apply leb_val; try (apply contrastRatio_nonneg; assumption).
  apply orb_true_iff in H. destruct H as [H|H];
    apply andb_true_iff in H; destruct H as [Ha Hc].
  - apply (leb_val b f1 Nb N1) in Ha. apply (leb_val f1 f2 N1 N2) in Hc.
    apply contrastRatio_monotone_above; assumption.
  - apply (leb_val f2 f1 N2 N1) in Ha. apply (leb_val f1 b N1 Nb) in Hc.
    apply contrastRatio_monotone_below; assumption.
Qed.

Lemma contrastRatio_monotone_on_each_side_witness :
  (contrastRatio 0.25 0.5 <=? contrastRatio 0.125 0.5)%float = true.
Proof.
  apply (contrastRatio_monotone_on_each_side 0.5 0.25 0.125); reflexivity.
Defined.

(** Strictness is lost to rounding: next to the background luminance 0, the
    smallest positive Number is further away than 0 itself, and both have
    ratio 1. *)
Lemma contrastRatio_not_strict_on_one_side :
  Rabs (val 0 - val 0) < Rabs (val 0x1p-1074 - val 0)
  /\ contrastRatio 0 0 = 1%float
  /\ contrastRatio 0x1p-1074 0 = 1%float.
Proof.
  split; [|split; reflexivity].
  rewrite val_0. change (val 0x1p-1074%float) with (F2R 1 (-1074)).
  unfold F2R. pose proof (bpow_pos (-1074)).
  unfold Rabs. repeat destruct Rcase_abs; lra.
Qed.

End Luminances.

(* ================================================================== *)
(** * What the parser reads *)
(* ================================================================== *)

Lemma hex1_value (c : ascii) :
  is_hex_digit c = true ->
  parseInt (String c "") 16 = number_of_Z (hex_value c)
  /\ parseInt (String "0" (String c "")) 16 = number_of_Z (hex_value c).
Proof.
  assert (H : forallb hex1_value_ok all_ascii = true) by (vm_compute; reflexivity).
  rewrite forallb_forall in H. specialize (H c (all_ascii_complete c)).
  unfold hex1_value_ok in H. intros Hc. rewrite Hc in H. cbn [implb] in H.
  apply andb_true_iff in H. destruct H as [H1 H2].
  split; apply Leibniz.eqb_spec; assumption.
Qed.

Lemma hex2_value (c1 c2 : ascii) :
  is_hex_digit c1 = true -> is_hex_digit c2 = true ->
  parseInt (String c1 (String c2 "")) 16
  = number_of_Z (16 * hex_value c1 + hex_value c2).
Proof.
  assert (H : forallb (fun a => forallb (hex2_value_ok a) all_ascii) all_ascii = true)
    by (vm_compute; reflexivity).
  rewrite forallb_forall in H. specialize (H c1 (all_ascii_complete c1)).
  rewrite forallb_forall in H. specialize (H c2 (all_ascii_complete c2)).
  unfold hex2_value_ok in H. intros H1 H2. rewrite H1, H2 in H.
  apply Leibniz.eqb_spec. exact H.
Qed.

(** X1: in a string of seven code units whose last six are hex digits, each
    channel is read as 16 times its first digit plus its second. *)
Theorem hex_reads_two_digit_channels (c0 d1 d2 d3 d4 d5 d6 : ascii) :
  all_hex_digits
    (String d1 (String d2 (String d3 (String d4 (String d5 (String d6 ""))))))
  = true ->
  toRGB.hex_string
    (String c0
       (String d1 (String d2 (String d3 (String d4 (String d5 (String d6 "")))))))
  = (number_of_Z (16 * hex_value d1 + hex_value d2),
     number_of_Z (16 * hex_value d3 + hex_value d4),
     number_of_Z (16 * hex_value d5 + hex_value d6)).
Proof.
  cbn [all_hex_digits]. rewrite !andb_true_iff.
  intros (H1 & H2 & H3 & H4 & H5 & H6 & _).
  unfold toRGB.hex_string.
  cbn [String.length Nat.eqb substr Nat.add Nat.mul].
  rewrite !hex2_value by assumption. reflexivity.
Qed.

Lemma hex_reads_two_digit_channels_witness :
  toRGB.hex_string "#1aF09c" = (26, 240, 156).
Proof.
  apply (hex_reads_two_digit_channels "#" "1" "a" "F" "0" "9" "c"). reflexivity.
Defined.

(** X2: in a string of four code units whose last three are hex digits, each
    channel is the value of its single digit, 0 to 15: the string is read
    as the seven-code-unit colour with a 0 before each digit. *)
Theorem hex_reads_shorthand_digits_unexpanded (c0 d1 d2 d3 : ascii) :
  all_hex_digits (String d1 (String d2 (String d3 ""))) = true ->
  toRGB.hex_string (String c0 (String d1 (String d2 (String d3 ""))))
  = (number_of_Z (hex_value d1), number_of_Z (hex_value d2),
     number_of_Z (hex_value d3))
  /\ toRGB.hex_string (String c0 (String d1 (String d2 (String d3 ""))))
     = toRGB.hex_string
         (String c0
            (String "0" (String d1 (String "0" (String d2
               (String "0" (String d3 ""))))))).
Proof.
  cbn [all_hex_digits]. rewrite !andb_true_iff.
  intros (H1 & H2 & H3 & _).
  unfold toRGB.hex_string.
  cbn [String.length Nat.eqb substr Nat.add Nat.mul].
  destruct (hex1_value d1 H1) as [-> ->].
  destruct (hex1_value d2 H2) as [-> ->].
  destruct (hex1_value d3 H3) as [-> ->].
  split; reflexivity.
Qed.

Lemma hex_reads_shorthand_digits_unexpanded_witness :
  toRGB.hex_string "#a0F" = (10, 0, 15)
  /\ toRGB.hex_string "#a0F" = toRGB.hex_string "#0a000F".
Proof.
  apply (hex_reads_shorthand_digits_unexpanded "#" "a" "0" "F"). reflexivity.
Defined.

Lemma hex_ignores_first_code_unit (c c' : ascii) (s : string) :
  toRGB.hex_string (String c s) = toRGB.hex_string (String c' s).
Proof.
  unfold toRGB.hex_string. cbn [String.length].
  destruct (Nat.eqb (S (String.length s)) 4); reflexivity.
Qed.

Lemma substr_0_0 (s : string) : substr s 0 0 = EmptyString.
Proof. destruct s; reflexivity. Qed.

Lemma hex_ignores_code_units_after_the_seventh (s t : string) :
  (7 <= String.length s)%nat ->
  toRGB.hex_string (s ++ t) = toRGB.hex_string s.
Proof.
  destruct s as [|c0 [|c1 [|c2 [|c3 [|c4 [|c5 [|c6 s]]]]]]];
    cbn [String.length]; try lia.
  intros _. unfold toRGB.hex_string.
  cbn [String.length Nat.eqb substr Nat.add Nat.mul append].
  rewrite !substr_0_0. reflexivity.
Qed.

(* ================================================================== *)
(** * The case of the letters A-Z *)
(* ================================================================== *)

Lemma lower_ascii_facts (c : ascii) :
  is_white_space (lower_ascii c) = is_white_space c
  /\ digit_of (lower_ascii c) = digit_of c.
Proof.
  assert (H : forallb lower_ok all_ascii = true) by (vm_compute; reflexivity).
  rewrite forallb_forall in H. specialize (H c (all_ascii_complete c)).
  unfold lower_ok in H. apply andb_true_iff in H. destruct H as [H1 H2].
  split.
  - apply Bool.eqb_prop, H1.
  - destruct (digit_of (lower_ascii c)), (digit_of c); try discriminate;
      [apply Z.eqb_eq in H2; congruence|reflexivity].
Qed.

Lemma lower_ascii_letters_length (s : string) :
  String.length (lower_ascii_letters s) = String.length s.
Proof. induction s as [|c s IH]; simpl; congruence. Qed.

Lemma lower_ascii_letters_substr (s : string) (start len : nat) :
  substr (lower_ascii_letters s) start len = lower_ascii_letters (substr s start len).
Proof.
  revert start len. induction s as [|c s IH]; intros [|start] [|len];
    cbn [lower_ascii_letters substr]; try reflexivity; rewrite ?IH; reflexivity.
Qed.

Lemma lower_ascii_letters_trim_start (s : string) :
  trim_start (lower_ascii_letters s) = lower_ascii_letters (trim_start s).
Proof.
  induction s as [|c s IH]; [reflexivity|].
  cbn [lower_ascii_letters trim_start].
  rewrite (proj1 (lower_ascii_facts c)).
  destruct (is_white_space c); [exact IH|reflexivity].
Qed.

Lemma lower_ascii_letters_parse_digits (R : Z) (s : string) (acc : option Z) :
  parse_digits R (lower_ascii_letters s) acc = parse_digits R s acc.
Proof.
  revert acc. induction s as [|c s IH]; intros acc; [reflexivity|].
  cbn [lower_ascii_letters parse_digits].
  rewrite (proj2 (lower_ascii_facts c)).
  destruct (digit_of c) as [d|]; [|reflexivity].
  destruct (d <? R)%Z; [apply IH|reflexivity].
Qed.

Lemma lower_ascii_letters_strip_sign (s : string) :
  strip_sign (lower_ascii_letters s)
  = (fst (strip_sign s), lower_ascii_letters (snd (strip_sign s))).
Proof.
  destruct s as [|c s]; [reflexivity|].
  destruct c as [[] [] [] [] [] [] [] []]; reflexivity.
Qed.

Lemma lower_ascii_letters_strip_hex_prefix (s : string) :
  strip_hex_prefix (lower_ascii_letters s) = lower_ascii_letters (strip_hex_prefix s).
Proof.
  destruct s as [|c1 s]; [reflexivity|].
  destruct c1 as [[] [] [] [] [] [] [] []]; try reflexivity.
  destruct s as [|c2 s]; [reflexivity|].
  destruct c2 as [[] [] [] [] [] [] [] []]; reflexivity.
Qed.

Lemma parseInt_16 (s : string) :
  parseInt s 16
  = match parse_digits 16 (strip_hex_prefix (snd (strip_sign (trim_start s)))) None with
    | None => nan
    | Some 0%Z => if fst (strip_sign (trim_start s)) then (-0) else 0
    | Some mathInt =>
        number_of_Z
          (if fst (strip_sign (trim_start s)) then - mathInt else mathInt)
    end.
Proof.
  unfold parseInt. destruct (strip_sign (trim_start s)) as [negative s1].
  reflexivity.
Qed.

Lemma lower_ascii_letters_parseInt_16 (s : string) :
  parseInt (lower_ascii_letters s) 16 = parseInt s 16.
Proof.
  rewrite !parseInt_16.
  rewrite lower_ascii_letters_trim_start, lower_ascii_letters_strip_sign. cbn [fst snd].
  rewrite lower_ascii_letters_strip_hex_prefix, lower_ascii_letters_parse_digits. reflexivity.
Qed.

Lemma hex_is_case_insensitive (s : string) :
  toRGB.hex_string (lower_ascii_letters s) = toRGB.hex_string s.
Proof.
  unfold toRGB.hex_string. rewrite lower_ascii_letters_length.
  rewrite !lower_ascii_letters_substr, !lower_ascii_letters_parseInt_16. reflexivity.
Qed.

(* ================================================================== *)
(** * Integer channels *)
(* ================================================================== *)

Lemma bytes_complete (z : Z) : (0 <= z <= 255)%Z -> In z bytes.
Proof.
  intros H. change bytes with (map Z.of_nat (seq 0 256)).
  apply in_map_iff. exists (Z.to_nat z). split; [lia|].
  apply in_seq. lia.
Qed.

Lemma channel_of_byte (z : Z) :
  (0 <= z <= 255)%Z -> In (number_of_Z z) channels.
Proof.
  intros H.
  assert (Hc : channels = map number_of_Z bytes) by (vm_compute; reflexivity).
  rewrite Hc. apply in_map, bytes_complete, H.
Qed.

Lemma byte_of_channel (x : float) :
  In x channels -> exists z, (0 <= z <= 255)%Z /\ x = number_of_Z z.
Proof.
  assert (Hc : channels = map (fun n => number_of_Z (Z.of_nat n)) (seq 0 256))
    by (vm_compute; reflexivity).
  rewrite Hc, in_map_iff. intros (n & <- & Hn). apply in_seq in Hn.
  exists (Z.of_nat n). split; [lia|reflexivity].
Qed.

(** X3: on a valid colour the parser returns, without throwing, three
    integers between 0 and 255. *)
Theorem hex_of_valid_color_is_three_bytes (s : string) :
  valid_hex_color s = true ->
  exists r g b : Z,
    (0 <= r <= 255)%Z /\ (0 <= g <= 255)%Z /\ (0 <= b <= 255)%Z
    /\ toRGB.hex (JSString s)
       = Normal (number_of_Z r, number_of_Z g, number_of_Z b).
Proof.
  intros Hv.
  destruct (hex_string_channels s Hv) as (r & g & b & E & Hr & Hg & Hb).
  destruct (byte_of_channel r Hr) as (zr & Zr & ->).
  destruct (byte_of_channel g Hg) as (zg & Zg & ->).
  destruct (byte_of_channel b Hb) as (zb & Zb & ->).
  exists zr, zg, zb. repeat split; try lia. cbn [toRGB.hex]. rewrite E.
  reflexivity.
Qed.

Lemma hex_of_valid_color_is_three_bytes_witness :
  exists r g b : Z,
    (0 <= r <= 255)%Z /\ (0 <= g <= 255)%Z /\ (0 <= b <= 255)%Z
    /\ toRGB.hex (JSString "#fE0198")
       = Normal (number_of_Z r, number_of_Z g, number_of_Z b).
Proof. apply hex_of_valid_color_is_three_bytes. reflexivity. Defined.

(** X7: the normalizer maps integer channels between 0 and 255 into the
    unit interval. *)
Theorem normalizeColor_in_unit (r g b : Z) :
  (0 <= r <= 255)%Z -> (0 <= g <= 255)%Z -> (0 <= b <= 255)%Z ->
  let '(rn, gn, bn) :=
    normalizeColor (number_of_Z r, number_of_Z g, number_of_Z b) in
  in_unit rn = true /\ in_unit gn = true /\ in_unit bn = true.
Proof.
  assert (H : forallb normalize_ok channels = true) by (vm_compute; reflexivity).
  rewrite forallb_forall in H. intros Hr Hg Hb. cbn [normalizeColor].
  repeat split;
    [apply (H _ (channel_of_byte r Hr)) | apply (H _ (channel_of_byte g Hg))
    | apply (H _ (channel_of_byte b Hb))].
Qed.

Lemma normalizeColor_in_unit_witness :
  let '(rn, gn, bn) :=
    normalizeColor (number_of_Z 0, number_of_Z 118, number_of_Z 255) in
  in_unit rn = true /\ in_unit gn = true /\ in_unit bn = true.
Proof. apply (normalizeColor_in_unit 0 118 255); lia. Defined.

Section Channels.

Local Open Scope R_scope.

Lemma succ_byte (z : Z) :
  (0 <= z < 255)%Z ->
  (number_of_Z z + 1)%float = number_of_Z (z + 1)
  /\ number_of_Z z <> 255%float.
Proof.
  assert (H : forallb succ_ok bytes = true) by (vm_compute; reflexivity).
  rewrite forallb_forall in H. intros Hz.
  specialize (H z (bytes_complete z ltac:(lia))). unfold succ_ok in H.
  assert (Hne : (z =? 255)%Z = false) by (apply Z.eqb_neq; lia).
  rewrite Hne in H. cbn [orb] in H. apply andb_true_iff in H.
  destruct H as [H1 H2]. split.
  - apply Leibniz.eqb_spec, H1.
  - intros E. rewrite E in H2. discriminate.
Qed.

Lemma steps_on_channels : for_all_channels steps_ok = true.
Proof. vm_compute. reflexivity. Qed.

Lemma step_on_channels (r g b : float) :
  In r channels -> In g channels -> In b channels ->
  (Leibniz.eqb r 255 || (luminance r g b <? luminance (r + 1) g b))%float = true
  /\ (Leibniz.eqb g 255 || (luminance r g b <? luminance r (g + 1) b))%float = true
  /\ (Leibniz.eqb b 255 || (luminance r g b <? luminance r g (b + 1)))%float = true.
Proof.
  intros Hr Hg Hb.
  pose proof (for_all_channels_spec _ steps_on_channels r g b Hr Hg Hb) as H.
  unfold steps_ok in H. cbv zeta in H.
  apply andb_true_iff in H. destruct H as [H H3].
  apply andb_true_iff in H. destruct H as [H1 H2]. auto.
Qed.

Lemma luminance_val_nonneg (r g b : Z) :
  (0 <= r <= 255)%Z -> (0 <= g <= 255)%Z -> (0 <= b <= 255)%Z ->
  nonneg_finite
    (Prim2SF (luminance (number_of_Z r) (number_of_Z g) (number_of_Z b))).
Proof.
  intros Hr Hg Hb. apply in_unit_val.
  apply (for_all_channels_spec _ unit_on_channels); apply channel_of_byte;
    assumption.
Qed.

(** A function on bytes that increases at each step increases. *)
Lemma increasing_by_steps (F : Z -> R) :
  (forall z, (0 <= z < 255)%Z -> F z < F (z + 1)%Z) ->
  forall a b, (0 <= a)%Z -> (a < b)%Z -> (b <= 255)%Z -> F a < F b.
Proof.
  intros Hstep a b Ha Hab Hb.
  replace b with (a + 1 + Z.of_nat (Z.to_nat (b - a - 1)))%Z by lia.
  assert (Hn : (a + 1 + Z.of_nat (Z.to_nat (b - a - 1)) <= 255)%Z) by lia.
  revert Hn. generalize (Z.to_nat (b - a - 1)). intros n.
  induction n as [|n IH]; intros Hn.
  - rewrite Z.add_0_r. apply Hstep. lia.
  - apply Rlt_trans with (F (a + 1 + Z.of_nat n)%Z); [apply IH; lia|].
    replace (a + 1 + Z.of_nat (S n))%Z with (a + 1 + Z.of_nat n + 1)%Z by lia.
    apply Hstep. lia.
Qed.

Lemma luminance_increasing_in_red (x y a b : Z) :
  (0 <= x <= 255)%Z -> (0 <= y <= 255)%Z ->
  (0 <= a)%Z -> (a < b)%Z -> (b <= 255)%Z ->
  val (luminance_of_bytes a x y) < val (luminance_of_bytes b x y).
Proof.
  intros Hx Hy.
  apply (increasing_by_steps (fun z => val (luminance_of_bytes z x y))).
  intros z Hz. destruct (succ_byte z Hz) as [E N].
  destruct (step_on_channels _ _ _ (channel_of_byte z ltac:(lia))
                (channel_of_byte x Hx) (channel_of_byte y Hy)) as (H & _ & _).
  rewrite (Leibniz_eqb_false _ _ N), E in H.
  apply ltb_val in H; try (apply luminance_val_nonneg; lia). exact H.
Qed.

Lemma luminance_increasing_in_green (x y a b : Z) :
  (0 <= x <= 255)%Z -> (0 <= y <= 255)%Z ->
  (0 <= a)%Z -> (a < b)%Z -> (b <= 255)%Z ->
  val (luminance_of_bytes x a y) < val (luminance_of_bytes x b y).
Proof.
  intros Hx Hy.
  apply (increasing_by_steps (fun z => val (luminance_of_bytes x z y))).
  intros z Hz. destruct (succ_byte z Hz) as [E N].
  destruct (step_on_channels _ _ _ (channel_of_byte x Hx)
                (channel_of_byte z ltac:(lia)) (channel_of_byte y Hy)) as (_ & H & _).
  rewrite (Leibniz_eqb_false _ _ N), E in H.
  apply ltb_val in H; try (apply luminance_val_nonneg; lia). exact H.
Qed.

Lemma luminance_increasing_in_blue (x y a b : Z) :
  (0 <= x <= 255)%Z -> (0 <= y <= 255)%Z ->
  (0 <= a)%Z -> (a < b)%Z -> (b <= 255)%Z ->
  val (luminance_of_bytes x y a) < val (luminance_of_bytes x y b).
Proof.
  intros Hx Hy.
  apply (increasing_by_steps (fun z => val (luminance_of_bytes x y z))).
  intros z Hz. destruct (succ_byte z Hz) as [E N].
  destruct (step_on_channels _ _ _ (channel_of_byte x Hx)
                (channel_of_byte y Hy) (channel_of_byte z ltac:(lia))) as (_ & _ & H).
  rewrite (Leibniz_eqb_false _ _ N), E in H.
  apply ltb_val in H; try (apply luminance_val_nonneg; lia). exact H.
Qed.

(** A colour that is at least as light in every channel has at least the
    luminance. *)
Lemma luminance_monotone (r g b r' g' b' : Z) :
  (0 <= r)%Z -> (r <= r')%Z -> (r' <= 255)%Z ->
  (0 <= g)%Z -> (g <= g')%Z -> (g' <= 255)%Z ->
  (0 <= b)%Z -> (b <= b')%Z -> (b' <= 255)%Z ->
  val (luminance_of_bytes r g b) <= val (luminance_of_bytes r' g' b').
Proof.
  intros.
  apply Rle_trans with (val (luminance_of_bytes r' g b)).
  { destruct (Z.eq_dec r r') as [->|]; [apply Rle_refl|].
    apply Rlt_le, luminance_increasing_in_red; lia. }
  apply Rle_trans with (val (luminance_of_bytes r' g' b)).
  { destruct (Z.eq_dec g g') as [->|]; [apply Rle_refl|].
    apply Rlt_le, luminance_increasing_in_green; lia. }
  destruct (Z.eq_dec b b') as [->|]; [apply Rle_refl|].
  apply Rlt_le, luminance_increasing_in_blue; lia.
Qed.

(** X9: the luminance of a colour strictly increases with each of its three
    channels. *)
Theorem luminance_increases_with_each_channel (c c' x y : Z) :
  (0 <= c)%Z -> (c < c')%Z -> (c' <= 255)%Z ->
  (0 <= x <= 255)%Z -> (0 <= y <= 255)%Z ->
  (luminance_of_bytes c x y <? luminance_of_bytes c' x y)%float = true
  /\ (luminance_of_bytes x c y <? luminance_of_bytes x c' y)%float = true
  /\ (luminance_of_bytes x y c <? luminance_of_bytes x y c')%float = true.
Proof.
  intros Hc Hcc Hc' Hx Hy.
  repeat split; apply ltb_val; try (apply luminance_val_nonneg; lia).
  - apply luminance_increasing_in_red; assumption.
  - apply luminance_increasing_in_green; assumption.
  - apply luminance_increasing_in_blue; assumption.
Qed.

Lemma luminance_increases_with_each_channel_witness :
  (luminance_of_bytes 3 7 200 <? luminance_of_bytes 250 7 200)%float = true
  /\ (luminance_of_bytes 7 3 200 <? luminance_of_bytes 7 250 200)%float = true
  /\ (luminance_of_bytes 7 200 3 <? luminance_of_bytes 7 200 250)%float = true.
Proof. apply (luminance_increases_with_each_channel 3 250 7 200); lia. Defined.

Lemma luminance_of_bytes_unit (r g b : Z) :
  (0 <= r <= 255)%Z -> (0 <= g <= 255)%Z -> (0 <= b <= 255)%Z ->
  in_unit (luminance_of_bytes r g b) = true.
Proof.
  intros Hr Hg Hb.
  apply (for_all_channels_spec _ unit_on_channels); apply channel_of_byte;
    assumption.
Qed.

(** X16: raising channels of the text colour never lowers its ratio with a
    luminance that is at most that of the text. *)
Theorem lighter_text_on_a_darker_background (r g b r' g' b' : Z) (lb : float) :
  (0 <= r)%Z -> (r <= r')%Z -> (r' <= 255)%Z ->
  (0 <= g)%Z -> (g <= g')%Z -> (g' <= 255)%Z ->
  (0 <= b)%Z -> (b <= b')%Z -> (b' <= 255)%Z ->
  in_unit lb = true ->
  (lb <=? luminance_of_bytes r g b)%float = true ->
  (contrastRatio (luminance_of_bytes r g b) lb
   <=? contrastRatio (luminance_of_bytes r' g' b') lb)%float = true.
Proof.
  intros Hr Hrr Hr' Hg Hgg Hg' Hb Hbb Hb' Hl H.
  pose proof (luminance_of_bytes_unit r g b ltac:(lia) ltac:(lia) ltac:(lia)) as U.
  pose proof (luminance_of_bytes_unit r' g' b' ltac:(lia) ltac:(lia) ltac:(lia)) as U'.
  pose proof (luminance_monotone r g b r' g' b' Hr Hrr Hr' Hg Hgg Hg' Hb Hbb Hb') as M.
  destruct (in_unit_val _ U) as [N _]. destruct (in_unit_val _ Hl) as [Nl _].
  apply leb_val; try (apply contrastRatio_nonneg; assumption).
  apply (leb_val _ _ Nl N) in H.
  apply contrastRatio_monotone_above; assumption.
Qed.

Lemma lighter_text_on_a_darker_background_witness :
  (contrastRatio (luminance_of_bytes 120 130 140) 0.1
   <=? contrastRatio (luminance_of_bytes 120 200 140) 0.1)%float = true.
Proof.
  apply (lighter_text_on_a_darker_background 120 130 140 120 200 140 0.1);
    try lia; reflexivity.
Defined.

(** X17: raising channels of the text colour never raises its ratio with a
    luminance that is at least that of the raised text. *)
Theorem lighter_text_on_a_lighter_background (r g b r' g' b' : Z) (lb : float) :
  (0 <= r)%Z -> (r <= r')%Z -> (r' <= 255)%Z ->
  (0 <= g)%Z -> (g <= g')%Z -> (g' <= 255)%Z ->
  (0 <= b)%Z -> (b <= b')%Z -> (b' <= 255)%Z ->
  in_unit lb = true ->
  (luminance_of_bytes r' g' b' <=? lb)%float = true ->
  (contrastRatio (luminance_of_bytes r' g' b') lb
   <=? contrastRatio (luminance_of_bytes r g b) lb)%float = true.
Proof.
  intros Hr Hrr Hr' Hg Hgg Hg' Hb Hbb Hb' Hl H.
  pose proof (luminance_of_bytes_unit r g b ltac:(lia) ltac:(lia) ltac:(lia)) as U.
  pose proof (luminance_of_bytes_unit r' g' b' ltac:(lia) ltac:(lia) ltac:(lia)) as U'.
  pose proof (luminance_monotone r g b r' g' b' Hr Hrr Hr' Hg Hgg Hg' Hb Hbb Hb') as M.
  destruct (in_unit_val _ U') as [N' _]. destruct (in_unit_val _ Hl) as [Nl _].
  apply leb_val; try (apply contrastRatio_nonneg; assumption).
  apply (leb_val _ _ N' Nl) in H.
  apply contrastRatio_monotone_below; assumption.
Qed.

Lemma lighter_text_on_a_lighter_background_witness :
  (contrastRatio (luminance_of_bytes 120 200 140) 0.9
   <=? contrastRatio (luminance_of_bytes 120 130 140) 0.9)%float = true.
Proof.
  apply (lighter_text_on_a_lighter_background 120 130 140 120 200 140 0.9);
    try lia; reflexivity.
Defined.

(** X8: the luminance of integer channels between 0 and 255 is in the unit
    interval; it is 0 for black only and 1 for white only. *)
Theorem luminance_of_bytes_in_unit (r g b : Z) :
  (0 <= r <= 255)%Z -> (0 <= g <= 255)%Z -> (0 <= b <= 255)%Z ->
  in_unit (luminance_of_bytes r g b) = true
  /\ (luminance_of_bytes r g b = 0%float <-> r = 0%Z /\ g = 0%Z /\ b = 0%Z)
  /\ (luminance_of_bytes r g b = 1%float
      <-> r = 255%Z /\ g = 255%Z /\ b = 255%Z).
Proof.
  intros Hr Hg Hb.
  split; [apply luminance_of_bytes_unit; assumption|].
  assert (V0 : val (luminance_of_bytes 0 0 0) = 0) by reflexivity.
  assert (V1 : val (luminance_of_bytes 255 255 255) = 1)
    by (change (luminance_of_bytes 255 255 255) with 1%float; apply val_1).
  split; split.
  - intros E. apply (f_equal val) in E. rewrite val_0 in E.
    destruct (Z.eq_dec r 0) as [->|Nr].
    + destruct (Z.eq_dec g 0) as [->|Ng].
      * destruct (Z.eq_dec b 0) as [->|Nb]; [auto|].
        pose proof (luminance_increasing_in_blue 0 0 0 b
                      ltac:(lia) ltac:(lia) ltac:(lia) ltac:(lia) ltac:(lia)).
        lra.
      * pose proof (luminance_increasing_in_green 0 b 0 g
                      ltac:(lia) Hb ltac:(lia) ltac:(lia) ltac:(lia)).
        pose proof (luminance_monotone 0 0 0 0 0 b
                      ltac:(lia) ltac:(lia) ltac:(lia) ltac:(lia) ltac:(lia)
                      ltac:(lia) ltac:(lia) ltac:(lia) ltac:(lia)).
        lra.
    + pose proof (luminance_increasing_in_red g b 0 r
                    Hg Hb ltac:(lia) ltac:(lia) ltac:(lia)).
      pose proof (luminance_monotone 0 0 0 0 g b
                    ltac:(lia) ltac:(lia) ltac:(lia) ltac:(lia) ltac:(lia)
                    ltac:(lia) ltac:(lia) ltac:(lia) ltac:(lia)).
      lra.
  - intros (-> & -> & ->). reflexivity.
  - intros E. apply (f_equal val) in E. rewrite val_1 in E.
    destruct (Z.eq_dec r 255) as [->|Nr].
    + destruct (Z.eq_dec g 255) as [->|Ng].
      * destruct (Z.eq_dec b 255) as [->|Nb]; [auto|].
        pose proof (luminance_increasing_in_blue 255 255 b 255
                      ltac:(lia) ltac:(lia) ltac:(lia) ltac:(lia) ltac:(lia)).
        lra.
      * pose proof (luminance_increasing_in_green 255 b g 255
                      ltac:(lia) Hb ltac:(lia) ltac:(lia) ltac:(lia)).
        pose proof (luminance_monotone 255 255 b 255 255 255
                      ltac:(lia) ltac:(lia) ltac:(lia) ltac:(lia) ltac:(lia)
                      ltac:(lia) ltac:(lia) ltac:(lia) ltac:(lia)).
        lra.
    + pose proof (luminance_increasing_in_red g b r 255
                    Hg Hb ltac:(lia) ltac:(lia) ltac:(lia)).
      pose proof (luminance_monotone 255 g b 255 255 255
                    ltac:(lia) ltac:(lia) ltac:(lia) ltac:(lia) ltac:(lia)
                    ltac:(lia) ltac:(lia) ltac:(lia) ltac:(lia)).
      lra.
  - intros (-> & -> & ->). reflexivity.
Qed.

Lemma luminance_of_bytes_in_unit_witness :
  in_unit (luminance_of_bytes 255 0 17) = true
  /\ (luminance_of_bytes 255 0 17 = 0%float
      <-> 255%Z = 0%Z /\ 0%Z = 0%Z /\ 17%Z = 0%Z)
  /\ (luminance_of_bytes 255 0 17 = 1%float
      <-> 255%Z = 255%Z /\ 0%Z = 255%Z /\ 17%Z = 255%Z).
Proof. apply (luminance_of_bytes_in_unit 255 0 17); lia. Defined.

(** X10: the ratio of any two luminances of the unit interval is at least 1
    and at most 21. *)
Theorem ratio_of_luminances_between_1_and_21 (l1 l2 : float) :
  in_unit l1 = true -> in_unit l2 = true ->
  (1 <=? contrastRatio l1 l2)%float = true
  /\ (contrastRatio l1 l2 <=? 21)%float = true.
Proof. apply contrastRatio_range. Qed.

Lemma ratio_of_luminances_between_1_and_21_witness :
  (1 <=? contrastRatio 0.2 0.7)%float = true
  /\ (contrastRatio 0.2 0.7 <=? 21)%float = true.
Proof. apply ratio_of_luminances_between_1_and_21; reflexivity. Defined.

(** X11: the ratio of any luminance of the unit interval with itself is
    exactly 1. *)
Theorem ratio_of_equal_luminances_is_1 (l : float) :
  in_unit l = true -> contrastRatio l l = 1%float.
Proof.
  intros H.
  destruct (contrastRatio_ordered l l H H (Rle_refl _)) as [-> _].
  pose proof (offset_like_offset l H) as O.
  destruct (quotient_spec _ _ O O) as [N Rq].
  pose proof (offset_like_pos _ O) as P.
  assert (E : val (l + 0.05) / val (l + 0.05) = 1) by (field; lra).
  rewrite E in Rq.
  assert (V : val ((l + 0.05) / (l + 0.05)) = val 1%float).
  { rewrite val_1. apply Rle_antisym.
    - apply (rounds_to_le 1 _ 1 Rq format_1). lra.
    - apply (rounds_to_ge 1 _ 1 Rq format_1). lra. }
  destruct (val_eq _ _ N nonneg_1 V) as [|[_ [Hz|Hz]]]; [assumption| |];
    discriminate Hz.
Qed.

Lemma ratio_of_equal_luminances_is_1_witness :
  contrastRatio 0.3 0.3 = 1%float.
Proof. apply ratio_of_equal_luminances_is_1. reflexivity. Defined.

(** X12: a NaN luminance, on either side, makes the ratio NaN. *)
Theorem ratio_of_nan_is_nan (l : float) :
  contrastRatio nan l = nan /\ contrastRatio l nan = nan.
Proof. split; [apply contrastRatio_nan_l|apply contrastRatio_nan_r]. Qed.

End Channels.

(* ================================================================== *)
(** * The entry point on any strings *)
(* ================================================================== *)

Lemma contrast_ratio_of (fg bg : string) :
  contrast fg bg = Normal (ratio_of fg bg).
Proof. reflexivity. Qed.

Lemma ratio_of_comm (c1 c2 : string) : ratio_of c1 c2 = ratio_of c2 c1.
Proof.
  unfold ratio_of, contrastRatio.
  rewrite (Math_max_comm _ (relativeLuminance (normalizeColor (toRGB.hex_string c2)))).
  rewrite (Math_min_comm _ (relativeLuminance (normalizeColor (toRGB.hex_string c2)))).
  reflexivity.
Qed.

(** X13: the entry point returns the same result when the text colour and
    the background colour are swapped. *)
Theorem swapping_the_two_colors_keeps_the_result {A B} (app : A) (app' : B)
    (text text' : Element) (background background' : option Element)
    (c1 c2 : string) :
  color (style text) = JSString c1 ->
  backgroundColor (style (default_arg background text)) = JSString c2 ->
  color (style text') = JSString c2 ->
  backgroundColor (style (default_arg background' text')) = JSString c1 ->
  checkTextContrast app text background
  = checkTextContrast app' text' background'.
Proof.
  intros H1 H2 H3 H4.
  rewrite (checkTextContrast_strings app _ _ _ _ H1 H2).
  rewrite (checkTextContrast_strings app' _ _ _ _ H3 H4).
  rewrite ratio_of_comm. reflexivity.
Qed.

Lemma swapping_the_two_colors_keeps_the_result_witness :
  checkTextContrast tt (element "#123456" "#fedcba") None
  = checkTextContrast 0%nat (element "#fedcba" "") (Some (element "" "#123456")).
Proof.
  apply (swapping_the_two_colors_keeps_the_result tt 0%nat _ _ _ _
           "#123456" "#fedcba"); reflexivity.
Defined.


(** X15: when both values read are strings, a colour string of fewer than
    6 code units, other than 4 (the empty string included), on either side,
    makes the result NaN. *)
Theorem too_short_color_gives_nan {A} (app : A) (text : Element)
    (background : option Element) (fg bg : string) :
  color (style text) = JSString fg ->
  backgroundColor (style (default_arg background text)) = JSString bg ->
  too_short fg = true \/ too_short bg = true ->
  checkTextContrast app text background = Normal nan.
Proof.
  intros Hf Hb H. rewrite (checkTextContrast_strings app _ _ _ _ Hf Hb).
  rewrite ratio_of_unparsable; [reflexivity|].
  unfold too_short in H.
  destruct H as [H|H]; [left|right];
    apply andb_true_iff in H; destruct H as [H1 H2];
    apply Nat.ltb_lt in H1; apply negb_true_iff, Nat.eqb_neq in H2;
    apply too_short_unparsable; assumption.
Qed.

Lemma too_short_color_gives_nan_witness :
  checkTextContrast tt (element "" "#ffffff") None = Normal nan.
Proof.
  apply (too_short_color_gives_nan tt _ _ "" "#ffffff");
    [reflexivity|reflexivity|left; reflexivity].
Defined.

(** X18: when both values read are strings, a colour string of 4 code
    units with a code unit that is not a hex digit among its last three, on
    either side, makes the result NaN. *)
Theorem bad_shorthand_color_gives_nan {A} (app : A) (text : Element)
    (background : option Element) (fg bg : string) :
  color (style text) = JSString fg ->
  backgroundColor (style (default_arg background text)) = JSString bg ->
  bad_shorthand fg = true \/ bad_shorthand bg = true ->
  checkTextContrast app text background = Normal nan.
Proof.
  intros Hf Hb H. rewrite (checkTextContrast_strings app _ _ _ _ Hf Hb).
  rewrite ratio_of_unparsable; [reflexivity|].
  unfold bad_shorthand in H.
  destruct H as [H|H]; [left|right];
    apply andb_true_iff in H; destruct H as [H1 H2];
    apply Nat.eqb_eq in H1; apply negb_true_iff in H2;
    apply shorthand_non_hex_unparsable; assumption.
Qed.

Lemma bad_shorthand_color_gives_nan_witness :
  checkTextContrast tt (element "#ffffff" "") (Some (element "" "#f-f"))
  = Normal nan.
Proof.
  apply (bad_shorthand_color_gives_nan tt _ _ "#ffffff" "#f-f");
    [reflexivity|reflexivity|right; reflexivity].
Defined.

(** X4: the first code unit of a colour string is never looked at: any
    code unit in the place of [#] gives the same result. *)
Theorem first_code_unit_is_not_checked (c c' : ascii) (fg bg : string) :
  contrast (String c fg) (String c' bg)
  = contrast (String "#" fg) (String "#" bg).
Proof.
  rewrite !contrast_ratio_of. unfold ratio_of.
  rewrite (hex_ignores_first_code_unit c "#" fg).
  rewrite (hex_ignores_first_code_unit c' "#" bg). reflexivity.
Qed.

(** X5: in colour strings of at least seven code units, whatever follows
    the seventh (an alpha channel, say) has no effect on the result. *)
Theorem code_units_after_the_seventh_are_ignored (fg bg t u : string) :
  (7 <= String.length fg)%nat -> (7 <= String.length bg)%nat ->
  contrast (fg ++ t) (bg ++ u) = contrast fg bg.
Proof.
  intros Hf Hb. rewrite !contrast_ratio_of. unfold ratio_of.
  rewrite (hex_ignores_code_units_after_the_seventh fg t Hf).
  rewrite (hex_ignores_code_units_after_the_seventh bg u Hb). reflexivity.
Qed.

Lemma code_units_after_the_seventh_are_ignored_witness :
  contrast ("#336699" ++ "80") ("#ffffff" ++ " !important")
  = contrast "#336699" "#ffffff".
Proof.
  apply code_units_after_the_seventh_are_ignored; simpl; lia.
Defined.

(** X6: replacing the letters A-Z of the colour strings by a-z has no
    effect on the result. *)
Theorem case_of_ascii_letters_does_not_matter (fg bg : string) :
  contrast (lower_ascii_letters fg) (lower_ascii_letters bg) = contrast fg bg.
Proof.
  rewrite !contrast_ratio_of. unfold ratio_of.
  rewrite !hex_is_case_insensitive. reflexivity.
Qed.

(* ================================================================== *)
(** * Which colour strings give NaN *)
(* ================================================================== *)

Lemma is_parsed_value_In (x : float) :
  is_parsed_value x = true -> In x parsed_values.
Proof.
  unfold is_parsed_value. rewrite existsb_exists. intros (y & Hy & E).
  apply Leibniz.eqb_spec in E. subst. exact Hy.
Qed.

Lemma one_unit_spec (c : ascii) :
  if one_unit_parses c
  then In (parseInt (String c "") 16) parsed_values
  else parseInt (String c "") 16 = nan.
Proof.
  assert (H : forallb one_unit_ok all_ascii = true) by (vm_compute; reflexivity).
  rewrite forallb_forall in H. specialize (H c (all_ascii_complete c)).
  unfold one_unit_ok in H. cbv zeta in H.
  destruct (one_unit_parses c);
    [apply is_parsed_value_In, H|apply is_nan_true, H].
Qed.

Lemma two_units_spec (c1 c2 : ascii) :
  if two_units_parse c1 c2
  then In (parseInt (String c1 (String c2 "")) 16) parsed_values
  else parseInt (String c1 (String c2 "")) 16 = nan.
Proof.
  assert (H : forallb (fun a => forallb (two_units_ok a) all_ascii) all_ascii
              = true) by (vm_compute; reflexivity).
  rewrite forallb_forall in H. specialize (H c1 (all_ascii_complete c1)).
  rewrite forallb_forall in H. specialize (H c2 (all_ascii_complete c2)).
  unfold two_units_ok in H. cbv zeta in H.
  destruct (two_units_parse c1 c2);
    [apply is_parsed_value_In, H|apply is_nan_true, H].
Qed.

Lemma unparsable_of_nan (s : string) (r g b : float) :
  toRGB.hex_string s = (r, g, b) -> r = nan \/ g = nan \/ b = nan ->
  unparsable s = true.
Proof.
  intros E H. unfold unparsable. rewrite E.
  destruct H as [->|[->| ->]]; cbn [is_nan]; rewrite ?orb_true_r; reflexivity.
Qed.

(** The channels that parse are the ones the description says. *)
Lemma hex_string_parse (s : string) :
  if channels_parse s
  then exists r g b, toRGB.hex_string s = (r, g, b)
         /\ In r parsed_values /\ In g parsed_values /\ In b parsed_values
  else unparsable s = true.
Proof.
  destruct s as [|c0 [|c1 [|c2 [|c3 [|c4 [|c5 [|c6 s]]]]]]];
    try (apply too_short_unparsable; cbn [String.length]; lia).
  - (* four code units *)
    cbn [channels_parse]. unfold toRGB.hex_string.
    cbn [String.length Nat.eqb substr Nat.add Nat.mul].
    pose proof (one_unit_spec c1) as H1. pose proof (one_unit_spec c2) as H2.
    pose proof (one_unit_spec c3) as H3.
    destruct (one_unit_parses c1), (one_unit_parses c2), (one_unit_parses c3);
      cbn [andb];
      try (do 3 eexists; repeat split; eauto; fail);
      eapply unparsable_of_nan;
      try (unfold toRGB.hex_string;
           cbn [String.length Nat.eqb substr Nat.add Nat.mul]; reflexivity);
      auto.
  - (* six code units *)
    cbn [channels_parse]. unfold toRGB.hex_string.
    cbn [String.length Nat.eqb substr Nat.add Nat.mul].
    pose proof (two_units_spec c1 c2) as H1.
    pose proof (two_units_spec c3 c4) as H2.
    pose proof (one_unit_spec c5) as H3.
    destruct (two_units_parse c1 c2), (two_units_parse c3 c4),
      (one_unit_parses c5); cbn [andb];
      try (do 3 eexists; repeat split; eauto; fail);
      eapply unparsable_of_nan;
      try (unfold toRGB.hex_string;
           cbn [String.length Nat.eqb substr Nat.add Nat.mul]; reflexivity);
      auto.
  - (* seven code units or more *)
    cbn [channels_parse]. unfold toRGB.hex_string.
    cbn [String.length Nat.eqb substr Nat.add Nat.mul].
    rewrite substr_0_0.
    pose proof (two_units_spec c1 c2) as H1.
    pose proof (two_units_spec c3 c4) as H2.
    pose proof (two_units_spec c5 c6) as H3.
    destruct (two_units_parse c1 c2), (two_units_parse c3 c4),
      (two_units_parse c5 c6); cbn [andb];
      try (do 3 eexists; repeat split; eauto; fail);
      eapply unparsable_of_nan;
      try (unfold toRGB.hex_string;
           cbn [String.length Nat.eqb substr Nat.add Nat.mul];
           rewrite substr_0_0; reflexivity);
      auto.
Qed.

Lemma for_all_triples_spec (vals : list float)
    (t : float -> float -> float -> bool) :
  for_all_triples vals t = true ->
  forall r g b, In r vals -> In g vals -> In b vals -> t r g b = true.
Proof.
  unfold for_all_triples. intros H r g b Hr Hg Hb.
  rewrite forallb_forall in H. specialize (H r Hr).
  rewrite forallb_forall in H. specialize (H g Hg).
  rewrite forallb_forall in H. exact (H b Hb).
Qed.

Lemma offsets_on_parsed_values : for_all_triples parsed_values offset_ok = true.
Proof. vm_compute. reflexivity. Qed.

(** A Number strictly between the infinities and different from zero is
    finite and not zero. *)
Lemma finite_nonzero (n : float) :
  (neg_infinity <? n) = true -> (n <? infinity) = true -> (n =? 0) = false ->
  exists s m e, Prim2SF n = S754_finite s m e.
Proof.
  rewrite !ltb_spec, eqb_spec. unfold SFltb, SFeqb.
  change (Prim2SF neg_infinity) with (S754_infinity true).
  change (Prim2SF infinity) with (S754_infinity false).
  change (Prim2SF 0) with (S754_zero false).
  destruct (Prim2SF n) as [s|[|]| |s m e]; cbn; try discriminate; eauto.
Qed.

Lemma shr_1_nonneg (mrs : shr_record) :
  (0 <= shr_m mrs)%Z -> (0 <= shr_m (shr_1 mrs))%Z.
Proof.
  destruct mrs as [m r s]. cbn [shr_m]. intros H.
  destruct m as [|[p|p| ]|p]; cbn; lia.
Qed.

Lemma shr_nonneg (mrs : shr_record) (e n : Z) :
  (0 <= shr_m mrs)%Z -> (0 <= shr_m (fst (shr mrs e n)))%Z.
Proof.
  intros H. destruct n as [|p|p]; cbn [shr fst]; try assumption.
  pose proof (iter_pos_invariant shr_1 (fun _ a => (0 <= shr_m a)%Z)) as Hi.
  apply (Hi (fun k a Ha => shr_1_nonneg a Ha) p 0%Z mrs H).
Qed.

Lemma shr_fexp_nonneg (m e : Z) (l : location) :
  (0 <= m)%Z -> (0 <= shr_m (fst (shr_fexp prec emax m e l)))%Z.
Proof.
  intros H. unfold shr_fexp. apply shr_nonneg.
  rewrite (proj2 (loc_of_shr_record_of_loc m l)). exact H.
Qed.

Lemma round_nearest_even_nonneg (m : Z) (l : location) :
  (0 <= m)%Z -> (0 <= round_nearest_even m l)%Z.
Proof.
  intros H. destruct l as [|[ | | ]]; cbn; try lia.
  destruct (Z.even m); lia.
Qed.

(** Rounding a non-negative mantissa never gives NaN. *)
Lemma binary_round_aux_not_nan (sx : bool) (mx ex : Z) (lx : location) :
  (0 <= mx)%Z -> binary_round_aux prec emax sx mx ex lx <> S754_nan.
Proof.
  intros H. unfold binary_round_aux.
  pose proof (shr_fexp_nonneg mx ex lx H) as H1.
  destruct (shr_fexp prec emax mx ex lx) as [mrs' e']. cbn [fst] in H1.
  pose proof (shr_fexp_nonneg
                (round_nearest_even (shr_m mrs') (loc_of_shr_record mrs')) e'
                loc_Exact (round_nearest_even_nonneg _ _ H1)) as H2.
  destruct (shr_fexp prec emax
              (round_nearest_even (shr_m mrs') (loc_of_shr_record mrs')) e'
              loc_Exact) as [mrs'' e'']. cbn [fst] in H2.
  destruct (shr_m mrs'') as [|p|p]; try discriminate; [|lia].
  destruct (e'' <=? emax - prec)%Z; discriminate.
Qed.

Lemma SFdiv_finite_not_nan (sx sy : bool) (mx my : positive) (ex ey : Z) :
  SFdiv prec emax (S754_finite sx mx ex) (S754_finite sy my ey) <> S754_nan.
Proof.
  unfold SFdiv, SFdiv_core_binary.
  set (e' := Z.min _ _). set (m' := match (ex - ey - e')%Z with
                                    | 0%Z => Zpos mx
                                    | Zpos _ => Z.shiftl (Zpos mx) (ex - ey - e')
                                    | Zneg _ => 0%Z
                                    end).
  assert (Hm' : (0 <= m')%Z).
  { unfold m'. destruct (ex - ey - e')%Z eqn:E; try lia.
    apply Z.shiftl_nonneg. lia. }
  pose proof (Z_div_mod m' (Zpos my) ltac:(lia)) as Hd.
  destruct (Z.div_eucl m' (Zpos my)) as [q r]. destruct Hd as [Hq Hr].
  apply binary_round_aux_not_nan. nia.
Qed.

Lemma div_finite_not_nan (x y : float) :
  (exists s m e, Prim2SF x = S754_finite s m e) ->
  (exists s m e, Prim2SF y = S754_finite s m e) ->
  x / y <> nan.
Proof.
  intros (sx & mx & ex & Ex) (sy & my & ey & Ey) E.
  apply (f_equal Prim2SF) in E. rewrite div_spec, Ex, Ey in E.
  exact (SFdiv_finite_not_nan _ _ _ _ _ _ E).
Qed.

Lemma Math_max_cases (x y : float) :
  is_nan x = false -> is_nan y = false ->
  Math.max x y = x \/ Math.max x y = y.
Proof.
  intros Hx Hy. unfold Math.max. rewrite Hx, Hy.
  destruct (x <? y); [right; reflexivity|].
  destruct (Leibniz.eqb y 0 && Leibniz.eqb x (-0)); auto.
Qed.

Lemma Math_min_cases (x y : float) :
  is_nan x = false -> is_nan y = false ->
  Math.min x y = x \/ Math.min x y = y.
Proof.
  intros Hx Hy. unfold Math.min. rewrite Hx, Hy.
  destruct (y <? x); [right; reflexivity|].
  destruct (Leibniz.eqb y (-0) && Leibniz.eqb x 0); auto.
Qed.

Lemma offset_ok_spec (r g b : float) :
  offset_ok r g b = true ->
  is_nan (luminance r g b) = false
  /\ exists s m e, Prim2SF (luminance r g b + 0.05) = S754_finite s m e.
Proof.
  unfold offset_ok. cbv zeta. rewrite !andb_true_iff, !negb_true_iff.
  intros [[[H1 H2] H3] H4]. split; [assumption|].
  apply finite_nonzero; assumption.
Qed.

(** The ratio of the luminances of two triples of parsed channels is not
    NaN. *)
Lemma ratio_of_parsed_not_nan (r1 g1 b1 r2 g2 b2 : float) :
  In r1 parsed_values -> In g1 parsed_values -> In b1 parsed_values ->
  In r2 parsed_values -> In g2 parsed_values -> In b2 parsed_values ->
  contrastRatio (luminance r1 g1 b1) (luminance r2 g2 b2) <> nan.
Proof.
  intros Hr1 Hg1 Hb1 Hr2 Hg2 Hb2.
  destruct (offset_ok_spec _ _ _
              (for_all_triples_spec _ _ offsets_on_parsed_values
                 r1 g1 b1 Hr1 Hg1 Hb1)) as [N1 F1].
  destruct (offset_ok_spec _ _ _
              (for_all_triples_spec _ _ offsets_on_parsed_values
                 r2 g2 b2 Hr2 Hg2 Hb2)) as [N2 F2].
  unfold contrastRatio.
  apply div_finite_not_nan.
  - destruct (Math_max_cases _ _ N1 N2) as [-> | ->]; assumption.
  - destruct (Math_min_cases _ _ N1 N2) as [-> | ->]; assumption.
Qed.

Lemma ratio_of_parse (fg bg : string) :
  ratio_of fg bg = nan
  <-> channels_parse fg = false \/ channels_parse bg = false.
Proof.
  pose proof (hex_string_parse fg) as Hf. pose proof (hex_string_parse bg) as Hb.
  split.
  - intros E.
    destruct (channels_parse fg); [|left; reflexivity].
    destruct (channels_parse bg); [|right; reflexivity].
    exfalso.
    destruct Hf as (r1 & g1 & b1 & E1 & Hr1 & Hg1 & Hb1).
    destruct Hb as (r2 & g2 & b2 & E2 & Hr2 & Hg2 & Hb2).
    unfold ratio_of in E. rewrite E1, E2 in E.
    exact (ratio_of_parsed_not_nan _ _ _ _ _ _ Hr1 Hg1 Hb1 Hr2 Hg2 Hb2 E).
  - intros [H|H]; rewrite H in *; apply ratio_of_unparsable; auto.
Qed.

(** C8, amended: on two strings the entry point never throws, and its
    result is NaN exactly when a channel of the text colour or of the
    background colour does not parse ([channels_parse] says which do);
    malformed strings whose channels all parse give a Number that is not
    NaN. *)
Theorem nan_exactly_when_a_channel_does_not_parse {A} (app : A)
    (text : Element) (background : option Element) (fg bg : string) :
  color (style text) = JSString fg ->
  backgroundColor (style (default_arg background text)) = JSString bg ->
  exists v : float,
    checkTextContrast app text background = Normal v
    /\ (v = nan <-> channels_parse fg = false \/ channels_parse bg = false).
Proof.
  intros Hf Hb. rewrite (checkTextContrast_strings app _ _ _ _ Hf Hb).
  eexists. split; [reflexivity|]. apply ratio_of_parse.
Qed.

Lemma nan_exactly_when_a_channel_does_not_parse_witness :
  exists v : float,
    checkTextContrast tt (element "#ff" "#fff") (Some (element "" "#00 0-f"))
    = Normal v
    /\ (v = nan
        <-> channels_parse "#ff" = false \/ channels_parse "#00 0-f" = false).
Proof.
  apply (nan_exactly_when_a_channel_does_not_parse tt _ _ "#ff" "#00 0-f");
    reflexivity.
Defined.
